(** * analyze_phone_pii: the phone-column classifier and the CSV consolidator

    A shallow embedding of [analyze_phone_pii.py] and the properties of its
    two components: [find_phone_pattern_in_query] (the classifier) and
    [process_csv_file] / [main] (the consolidator).

    Conventions of the embedding.
    - A Python [str] is a [string]; each character stands for the code point
      of the same number, so the texts covered are those over U+0000..U+00FF.
      The character tables below ([is_word], [is_space], [lower]) are the
      Unicode ones restricted to that range. Above it [str.lower()] can
      lengthen a text and [re.IGNORECASE] equates further characters with
      ASCII letters; module [Wide] has the classifier on texts that also
      hold U+0130 and U+0307, where this shows.
    - Every text of that range can be encoded as UTF-8, so writing a record
      to the output file does not fail in the embedding. A lone surrogate,
      which [json.loads] yields for an escape such as [\ud800], cannot be
      encoded and is outside the texts covered.
    - The regular expressions of the program are kept as the pattern strings
      of the source and compiled by [re_compile]; [re_search] is a
      backtracking matcher for the syntax those patterns use, with
      [re.IGNORECASE] always on (every search of the program passes it).
    - The f-string that builds the table regex has a backslash inside its
      replacement field, which Python accepts from version 3.12 on; the
      embedding describes the program as run by such an interpreter.
    - [json.loads], [csv.reader] and the byte format of [csv.writer] are
      library code: the first and the last are section variables, the second
      is represented by the records it yields.
    - The messages printed on the standard error stream are left out; of a
      file-level error only the fact that it was caught and reported is
      kept ([process_csv_file_reported]). *)

From Stdlib Require Import String Ascii List Bool Arith NArith ZArith Lia.
Import ListNotations.

Set Warnings "-register-all".

Local Open Scope string_scope.
Local Open Scope list_scope.

(** ** Characters *)

Module Chars.

Definition in_range (lo hi n : N) : bool := (N.leb lo n) && (N.leb n hi).

(** [str.isalnum() or '_'], which is what [\w] tests. *)
Definition is_word (c : ascii) : bool :=
  let n := N_of_ascii c in
  in_range 48 57 n || in_range 65 90 n || N.eqb n 95 || in_range 97 122 n
  || N.eqb n 170 || in_range 178 179 n || N.eqb n 181 || in_range 185 186 n
  || in_range 188 190 n || in_range 192 214 n || in_range 216 246 n
  || in_range 248 255 n.

(** [str.isspace()], which is what [\s] tests. *)
Definition is_space (c : ascii) : bool :=
  let n := N_of_ascii c in
  in_range 9 13 n || in_range 28 32 n || N.eqb n 133 || N.eqb n 160.

Definition is_digit (c : ascii) : bool := in_range 48 57 (N_of_ascii c).

(** [str.lower()] on one character below U+0100, which is one character
    again. *)
Definition lower (c : ascii) : ascii :=
  let n := N_of_ascii c in
  if in_range 65 90 n || in_range 192 214 n || in_range 216 222 n
  then ascii_of_N (n + 32) else c.

(** Two characters below U+0100 are equal under [re.IGNORECASE]. *)
Definition ci_eqb (x y : ascii) : bool := Ascii.eqb (lower x) (lower y).

Definition tab : ascii := ascii_of_N 9.
Definition lf : ascii := ascii_of_N 10.
Definition cr : ascii := ascii_of_N 13.
Definition dquote : ascii := ascii_of_N 34.

End Chars.

Import Chars.

(** [str.lower()], on a text over the code points below U+0100. *)
Definition str_lower (s : string) : string :=
  string_of_list_ascii (map lower (list_ascii_of_string s)).

(** The one-character string holding a double quote. *)
Definition DQ : string := String dquote EmptyString.
(** The one-character string holding a horizontal tab. *)
Definition TAB : string := String tab EmptyString.

(** [str.replace(old, new)] for a non-empty [old]: the occurrences are
    replaced from left to right, without overlap. *)
Fixpoint str_replace_from (n : nat) (old new s : string) : string :=
  match n with
  | O => s
  | S n' =>
      match s with
      | EmptyString => EmptyString
      | String c s' =>
          if String.prefix old s
          then (new ++ str_replace_from n' old new
                         (substring (String.length old) (String.length s) s))%string
          else String c (str_replace_from n' old new s')
      end
  end.

Definition str_replace (old new s : string) : string :=
  str_replace_from (String.length s) old new s.

(** ** Regular expressions *)

Module Re.

Inductive cls_item : Type :=
| ItChar (c : ascii)
| ItWord
| ItSpace
| ItDigit.

(** The parsed form of a pattern.  [x+] is parsed as [Seq x (Star x)]. *)
Inductive regex : Type :=
| Eps
| Chr (c : ascii)
| Cls (neg : bool) (items : list cls_item)
| Bnd
| Seq (a b : regex)
| Opt (a : regex)
| Star (a : regex)
| Grp (n : nat) (a : regex)
| Ref (n : nat).

(** *** Parsing a pattern string *)

Definition is_alnum_ascii (c : ascii) : bool :=
  let n := N_of_ascii c in
  in_range 48 57 n || in_range 65 90 n || in_range 97 122 n.

(** Characters with a meaning of their own outside a class; one that is not
    handled by [parse_atom] makes the pattern unsupported. *)
Definition is_special (c : ascii) : bool :=
  existsb (Ascii.eqb c)
    ["."; "^"; "$"; "*"; "+"; "?"; "{"; "}"; "["; "]"; "("; ")"; "|"; "\"]%char.

(** The items of a class, after the opening bracket and the optional [^]. *)
Fixpoint parse_class (cs : list ascii) (acc : list cls_item)
  : option (list cls_item * list ascii) :=
  match cs with
  | [] => None
  | "]"%char :: rest =>
      match acc with [] => None | _ => Some (rev acc, rest) end
  | "\"%char :: c :: rest =>
      if Ascii.eqb c "s" then parse_class rest (ItSpace :: acc)
      else if Ascii.eqb c "w" then parse_class rest (ItWord :: acc)
      else if Ascii.eqb c "d" then parse_class rest (ItDigit :: acc)
      else if Ascii.eqb c "t" then parse_class rest (ItChar tab :: acc)
      else if Ascii.eqb c "n" then parse_class rest (ItChar lf :: acc)
      else if Ascii.eqb c "r" then parse_class rest (ItChar cr :: acc)
      else if is_alnum_ascii c then None
      else parse_class rest (ItChar c :: acc)
  | "-"%char :: _ => None
  | "["%char :: _ => None
  | c :: rest => parse_class rest (ItChar c :: acc)
  end.

(** An escape outside a class. *)
Definition parse_escape (c : ascii) (rest : list ascii) : option regex :=
  if Ascii.eqb c "b" then Some Bnd
  else if Ascii.eqb c "w" then Some (Cls false [ItWord])
  else if Ascii.eqb c "s" then Some (Cls false [ItSpace])
  else if Ascii.eqb c "d" then Some (Cls false [ItDigit])
  else if Ascii.eqb c "t" then Some (Chr tab)
  else if Ascii.eqb c "n" then Some (Chr lf)
  else if Ascii.eqb c "r" then Some (Chr cr)
  else if in_range 49 57 (N_of_ascii c) then
    match rest with
    | d :: _ => if is_digit d then None
                else Some (Ref (N.to_nat (N_of_ascii c - 48)))
    | [] => Some (Ref (N.to_nat (N_of_ascii c - 48)))
    end
  else if is_alnum_ascii c then None
  else Some (Chr c).

(** A greedy quantifier after an atom; lazy and possessive forms and
    counted repetition are not supported. *)
Definition quantify (a : regex) (cs : list ascii) : option (regex * list ascii) :=
  let plain (q : regex) (rest : list ascii) :=
    match rest with
    | c :: _ => if existsb (Ascii.eqb c) ["?"; "+"; "*"; "{"]%char then None
                else Some (q, rest)
    | [] => Some (q, rest)
    end in
  match cs with
  | "?"%char :: rest => plain (Opt a) rest
  | "*"%char :: rest => plain (Star a) rest
  | "+"%char :: rest => plain (Seq a (Star a)) rest
  | "{"%char :: _ => None
  | _ => Some (a, cs)
  end.

(** [parse_seq] reads atoms up to a closing parenthesis or the end;
    [g] is the number the next capturing group gets. *)
Fixpoint parse_seq (fuel g : nat) (cs : list ascii) {struct fuel}
  : option (regex * nat * list ascii) :=
  match fuel with
  | O => None
  | S fuel' =>
      match cs with
      | [] => Some (Eps, g, [])
      | ")"%char :: _ => Some (Eps, g, cs)
      | _ =>
          match parse_atom fuel' g cs with
          | Some (a, g1, rest1) =>
              match quantify a rest1 with
              | Some (a', rest2) =>
                  match parse_seq fuel' g1 rest2 with
                  | Some (r, g2, rest3) => Some (Seq a' r, g2, rest3)
                  | None => None
                  end
              | None => None
              end
          | None => None
          end
      end
  end
with parse_atom (fuel g : nat) (cs : list ascii) {struct fuel}
  : option (regex * nat * list ascii) :=
  match fuel with
  | O => None
  | S fuel' =>
      match cs with
      | "("%char :: "?"%char :: ":"%char :: rest =>
          match parse_seq fuel' g rest with
          | Some (r, g1, ")"%char :: rest1) => Some (r, g1, rest1)
          | _ => None
          end
      | "("%char :: "?"%char :: _ => None
      | "("%char :: rest =>
          match parse_seq fuel' (S g) rest with
          | Some (r, g1, ")"%char :: rest1) => Some (Grp g r, g1, rest1)
          | _ => None
          end
      | "["%char :: "^"%char :: rest =>
          match parse_class rest [] with
          | Some (items, rest1) => Some (Cls true items, g, rest1)
          | None => None
          end
      | "["%char :: rest =>
          match parse_class rest [] with
          | Some (items, rest1) => Some (Cls false items, g, rest1)
          | None => None
          end
      | "\"%char :: c :: rest =>
          match parse_escape c rest with
          | Some a => Some (a, g, rest)
          | None => None
          end
      | c :: rest => if is_special c then None else Some (Chr c, g, rest)
      | [] => None
      end
  end.

(** [re.compile]: [None] when the pattern is outside the supported syntax. *)
Definition re_compile (pattern : string) : option regex :=
  let cs := list_ascii_of_string pattern in
  match parse_seq (2 * List.length cs + 2) 1 cs with
  | Some (r, _, []) => Some r
  | _ => None
  end.

(** *** Matching *)

(** The matcher's position in the text: the characters already passed, the
    nearest first, the characters still ahead, and the groups captured. *)
Record mstate : Type := MState {
  seen : list ascii;
  rest : list ascii;
  caps : list (nat * list ascii)
}.

Definition item_matches (x : ascii) (it : cls_item) : bool :=
  match it with
  | ItChar c => ci_eqb x c
  | ItWord => is_word x
  | ItSpace => is_space x
  | ItDigit => is_digit x
  end.

Definition cls_matches (neg : bool) (items : list cls_item) (x : ascii) : bool :=
  xorb neg (existsb (item_matches x) items).

(** The first character of [l] exists and is a word character. *)
Definition hd_word (l : list ascii) : bool :=
  match l with c :: _ => is_word c | [] => false end.

Definition word_before (st : mstate) : bool := hd_word (seen st).

Definition word_after (st : mstate) : bool := hd_word (rest st).

Definition at_boundary (st : mstate) : bool :=
  xorb (word_before st) (word_after st).

(** Move past the first [n] characters ahead. *)
Definition advance (n : nat) (st : mstate) : mstate :=
  MState (rev (firstn n (rest st)) ++ seen st) (skipn n (rest st)) (caps st).

(** The text between two positions of one run. *)
Definition consumed (st st' : mstate) : list ascii :=
  firstn (List.length (rest st) - List.length (rest st')) (rest st).

Fixpoint lookup_cap (n : nat) (cs : list (nat * list ascii)) : option (list ascii) :=
  match cs with
  | [] => None
  | (i, w) :: cs' => if Nat.eqb i n then Some w else lookup_cap n cs'
  end.

(** [w] is, up to case, a prefix of [l]. *)
Fixpoint ci_prefix (w l : list ascii) : bool :=
  match w, l with
  | [], _ => true
  | a :: w', b :: l' => ci_eqb b a && ci_prefix w' l'
  | _ :: _, [] => false
  end.

(** The iterations of a repetition whose body is matched by [body]: one
    more iteration is tried first (greedy), an iteration that consumes
    nothing is rejected, and when no further iteration leads to a match the
    rest of the pattern [k] is tried from here. *)
Fixpoint star_loop (body : (mstate -> option mstate) -> mstate -> option mstate)
    (k : mstate -> option mstate) (fuel : nat) (st0 : mstate) {struct fuel}
  : option mstate :=
  match fuel with
  | O => k st0
  | S fuel' =>
      match body (fun st1 =>
                    if Nat.ltb (List.length (rest st1)) (List.length (rest st0))
                    then star_loop body k fuel' st1 else None) st0 with
      | Some res => Some res
      | None => k st0
      end
  end.

(** The backtracking matcher, with the rest of the pattern as continuation. *)
Fixpoint run (r : regex) (k : mstate -> option mstate) (st : mstate) {struct r}
  : option mstate :=
  match r with
  | Eps => k st
  | Chr c =>
      match rest st with
      | x :: _ => if ci_eqb x c then k (advance 1 st) else None
      | [] => None
      end
  | Cls neg items =>
      match rest st with
      | x :: _ => if cls_matches neg items x then k (advance 1 st) else None
      | [] => None
      end
  | Bnd => if at_boundary st then k st else None
  | Seq a b => run a (run b k) st
  | Opt a =>
      match run a k st with
      | Some res => Some res
      | None => k st
      end
  | Star a => star_loop (run a) k (S (List.length (rest st))) st
  | Grp n a =>
      run a (fun st1 => k (MState (seen st1) (rest st1)
                                  ((n, consumed st st1) :: caps st1))) st
  | Ref n =>
      match lookup_cap n (caps st) with
      | Some w => if ci_prefix w (rest st) then k (advance (List.length w) st)
                  else None
      | None => None
      end
  end.

(** A match object: where the match starts, its text (group 0) and the
    captured groups. *)
Record re_match : Type := ReMatch {
  m_start : nat;
  m_text : list ascii;
  m_caps : list (nat * list ascii)
}.

(** Try the pattern at the current position, then at each later one. *)
Fixpoint search_from (r : regex) (before ahead : list ascii) : option re_match :=
  let st := MState before ahead [] in
  match run r Some st with
  | Some st' => Some (ReMatch (List.length before) (consumed st st') (caps st'))
  | None =>
      match ahead with
      | [] => None
      | c :: ahead' => search_from r (c :: before) ahead'
      end
  end.

(** [re.search(pattern, text, re.IGNORECASE)]. *)
Definition re_search (pattern text : string) : option re_match :=
  match re_compile pattern with
  | Some r => search_from r [] (list_ascii_of_string text)
  | None => None
  end.

(** [match.group(0)]. *)
Definition group0 (mt : re_match) : string := string_of_list_ascii (m_text mt).

(** [match.group(n)] for [n >= 1]; [None] when the group did not take part. *)
Definition group (n : nat) (mt : re_match) : option string :=
  option_map string_of_list_ascii (lookup_cap n (m_caps mt)).

End Re.

Import Re.

(** ** Python values and exceptions *)

(** The exceptions that can arise in the program. [OtherError] stands for
    any further subclass of [Exception] raised by library code ([OSError],
    [UnicodeDecodeError], [RecursionError], ...). *)
Inductive exn : Type :=
| JSONDecodeError
| KeyError
| TypeError
| AttributeError
| ValueError
| OtherError.

Inductive result (A : Type) : Type :=
| Ok (a : A)
| Raise (e : exn).

Arguments Ok {A} a.
Arguments Raise {A} e.

Definition bind {A B : Type} (x : result A) (f : A -> result B) : result B :=
  match x with
  | Ok a => f a
  | Raise e => Raise e
  end.

Notation "x <- c1 ;; c2" := (bind c1 (fun x => c2))
  (at level 61, c1 at next level, right associativity).

(** The values [json.loads] returns.  A float is given by its binary64 bit
    pattern; an object is a [dict] with string keys, kept in insertion
    order. *)
Inductive pyval : Type :=
| PNone
| PBool (b : bool)
| PInt (z : Z)
| PFloat (bits : Z)
| PStr (s : string)
| PList (l : list pyval)
| PDict (kvs : list (string * pyval)).

(** Truth value of an object, as tested by [if] and [not]. *)
Definition truthy (v : pyval) : bool :=
  match v with
  | PNone => false
  | PBool b => b
  | PInt z => negb (Z.eqb z 0)
  | PFloat bits => negb (Z.eqb (Z.land bits (2 ^ 63 - 1)) 0)
  | PStr s => negb (String.eqb s "")
  | PList l => match l with [] => false | _ => true end
  | PDict kvs => match kvs with [] => false | _ => true end
  end.

(** ** The classifier *)

Definition PHONE_PATTERNS : list string :=
  [ "\bto_contact(?:_\w+)?\b";
    "\bphone\b";
    "\bmobile\b";
    "\bcell\b";
    "\btel\b";
    "\bcontact_number\b";
    "\bphone_number\b";
    "\bhandphone\b";
    "\bhp_number\b";
    "\btelephone\b";
    "\btelephone_number\b";
    "\bcontact_phone\b";
    "\bcustomer_phone\b";
    "\brecipient_phone\b";
    "\bsender_phone\b";
    "\bphone_no\b";
    "\bmobile_no\b";
    "\bphone_num\b";
    "\bmobile_num\b" ].

Definition PHONE_TABLES : list string :=
  [ "\to_contact?\b";
    "\bcontacts?\b";
    "\baddresses?\b";
    "\brecipients?\b";
    "\bsenders?\b";
    "\buser_contacts?\b";
    "\bcustomer_contacts?\b";
    "\bcontact_info\b" ].

(** The f-string of the third check: the table pattern, with every pair of
    backslashes removed, placed between the two character classes. *)
Definition table_regex (table_pattern : string) : string :=
  ("\bfrom\s+([`" ++ DQ ++ "]?)([^\s,`" ++ DQ ++ "]*"
   ++ str_replace "\\" "" table_pattern
   ++ "[^\s,`" ++ DQ ++ "]*)\1")%string.

(** The loop over [PHONE_PATTERNS]: the first pattern, in list order, that
    is found anywhere in the text returns the text it matched. *)
Fixpoint column_loop (patterns : list string) (query_text : string) : option string :=
  match patterns with
  | [] => None
  | pattern :: patterns' =>
      match re_search pattern query_text with
      | Some mt => Some (group0 mt)
      | None => column_loop patterns' query_text
      end
  end.

(** The loop over [PHONE_TABLES]. A group that took no part in the match is
    formatted as [None] by the f-string. *)
Fixpoint table_loop (patterns : list string) (query_text : string) : option string :=
  match patterns with
  | [] => None
  | table_pattern :: patterns' =>
      match re_search (table_regex table_pattern) query_text with
      | Some table_match =>
          Some ("SELECT * from "
                ++ match group 2 table_match with Some t => t | None => "None" end)%string
      | None => table_loop patterns' query_text
      end
  end.

(** The body of [find_phone_pattern_in_query] for a non-empty [str]. *)
Definition find_in_text (query_text : string) : option string :=
  let query_lower := str_lower query_text in
  match re_search "\bselect\b" query_lower with
  | None => None
  | Some _ =>
      match column_loop PHONE_PATTERNS query_text with
      | Some matched_text => Some matched_text
      | None =>
          match re_search "select\s+\*" query_lower with
          | Some _ => table_loop PHONE_TABLES query_text
          | None => None
          end
      end
  end.

(** [find_phone_pattern_in_query]: a false value returns [None] at once; any
    other value that is not a [str] has no [lower] method. *)
Definition find_phone_pattern_in_query (query_text : pyval) : result (option string) :=
  if negb (truthy query_text) then Ok None
  else match query_text with
       | PStr s => Ok (find_in_text s)
       | _ => Raise AttributeError
       end.

(** ** Rows as dictionaries *)

(** A key of a row: a column name, or [None], the key under which
    [csv.DictReader] files the surplus fields of a long row. *)
Definition pykey : Type := option string.

(** A value of a row: a field, [None] (the filling of a short row), or the
    list of surplus fields of a long row. *)
Inductive cell : Type :=
| CStr (s : string)
| CNone
| CList (l : list string).

(** A [dict] in insertion order; every key occurs once. *)
Definition pydict : Type := list (pykey * cell).

Definition key_eqb (a b : pykey) : bool :=
  match a, b with
  | Some x, Some y => String.eqb x y
  | None, None => true
  | _, _ => false
  end.

Fixpoint dict_get (d : pydict) (k : pykey) : option cell :=
  match d with
  | [] => None
  | (k', v) :: d' => if key_eqb k' k then Some v else dict_get d' k
  end.

(** [d[k] = v]: an existing key keeps its place. *)
Fixpoint dict_set (k : pykey) (v : cell) (d : pydict) : pydict :=
  match d with
  | [] => [(k, v)]
  | (k', v') :: d' =>
      if key_eqb k' k then (k', v) :: d' else (k', v') :: dict_set k v d'
  end.

Definition dict_keys (d : pydict) : list pykey := map fst d.

(** [d.get(k, default)]. *)
Definition dict_get_default (d : pydict) (k : pykey) (default : cell) : cell :=
  match dict_get d k with
  | Some v => v
  | None => default
  end.

(** [dict(zip(keys, values))]. *)
Definition dict_of_zip (keys : list pykey) (values : list cell) : pydict :=
  fold_left (fun d kv => dict_set (fst kv) (snd kv) d) (combine keys values) [].

(** The dictionary [csv.DictReader.__next__] builds from a non-blank record,
    with the default [restkey=None] and [restval=None]. *)
Definition reader_row (fieldnames row : list string) : pydict :=
  let d := dict_of_zip (map Some fieldnames) (map CStr row) in
  let lf := List.length fieldnames in
  let lr := List.length row in
  if Nat.ltb lf lr then dict_set None (CList (skipn lf row)) d
  else if Nat.ltb lr lf then
    fold_left (fun d key => dict_set (Some key) CNone d) (skipn lr fieldnames) d
  else d.

(** ** Files *)

(** What the program can observe of one path: it does not exist, or it
    exists and [csv.reader] yields [records] and then either ends or, when
    [fails] is set, raises (an I/O failure or undecodable bytes; with no
    record at all this includes a failing [open]). *)
Inductive file_state : Type :=
| Missing
| Present (records : list (list string)) (fails : bool).

Definition file_exists (f : file_state) : bool :=
  match f with
  | Missing => false
  | Present _ _ => true
  end.

(** What is written to the output file: a record handed to [csv.writer], or
    text written directly. *)
Inductive out_item : Type :=
| Line (cells : list cell)
| RawText (s : string).

(** The effect of a run: the items written to the output file and the
    exception that ended the run, if one did. *)
Record run_result : Type := RunResult {
  written : list out_item;
  raised : option exn
}.

Definition MPP : string := "matched_phone_pattern".

Definition csv_files : list string :=
  [ "execute_query_05.csv";
    "execute_query_06.csv";
    "execute_query_07.csv";
    "query_results_05.csv";
    "query_results_06.csv";
    "query_results_07.csv" ].

(** The header written when no field names could be determined. *)
Definition default_header : string :=
  ("id,org_id,user_id,action,object_type,object_id,additional_properties,created_at,matched_phone_pattern"
   ++ String lf EmptyString)%string.

(** A key as it appears as a value of the header dictionary. *)
Definition key_cell (k : pykey) : cell :=
  match k with
  | Some s => CStr s
  | None => CNone
  end.

(** [DictWriter._dict_to_list] with the default [extrasaction='raise'] and
    [restval='']. *)
Definition dict_to_list (fieldnames : list pykey) (rowdict : pydict)
  : result (list cell) :=
  if forallb (fun k => existsb (key_eqb k) fieldnames) (dict_keys rowdict)
  then Ok (map (fun key => dict_get_default rowdict key (CStr "")) fieldnames)
  else Raise ValueError.

(** [DictWriter.writeheader]. *)
Definition writeheader (fieldnames : list pykey) : result (list cell) :=
  dict_to_list fieldnames (dict_of_zip fieldnames (map key_cell fieldnames)).

(** [DictWriter.writerows]: the rows are converted and written one by one,
    so the rows before an offending one are in the file when the
    exception leaves the call. *)
Fixpoint writerows (fieldnames : list pykey) (rows : list pydict)
  : list out_item * option exn :=
  match rows with
  | [] => ([], None)
  | rowdict :: rows' =>
      match dict_to_list fieldnames rowdict with
      | Ok cells =>
          let (items, e) := writerows fieldnames rows' in (Line cells :: items, e)
      | Raise e => ([], Some e)
      end
  end.

(** ** The consolidator *)

Section Consolidator.

(** [json.loads] on a [str]: the value decoded, or the exception raised
    ([JSONDecodeError] for a malformed text). *)
Variable json_loads : string -> result pyval.

(** The text [csv.writer] writes for one record (default dialect). *)
Variable writer_format : list cell -> string.

(** [json.loads] applied to a value of a row. *)
Definition loads_cell (c : cell) : result pyval :=
  match c with
  | CStr s => json_loads s
  | CNone => Raise TypeError
  | CList _ => Raise TypeError
  end.

Fixpoint assoc (key : string) (kvs : list (string * pyval)) : option pyval :=
  match kvs with
  | [] => None
  | (k, v) :: kvs' => if String.eqb k key then Some v else assoc key kvs'
  end.

(** [v.get(key, default)]: only a [dict] has the method. *)
Definition py_get (v : pyval) (key : string) (default : pyval) : result pyval :=
  match v with
  | PDict kvs => Ok (match assoc key kvs with Some x => x | None => default end)
  | _ => Raise AttributeError
  end.

(** The three statements before the [if] inside the inner [try]. *)
Definition row_pattern (row : pydict) : result (option string) :=
  additional_props <-
    loads_cell (dict_get_default row (Some "additional_properties") (CStr "{}")) ;;
  query_text <- py_get additional_props "query" (PStr "") ;;
  find_phone_pattern_in_query query_text.

(** The clause [except (json.JSONDecodeError, KeyError)]. *)
Definition inner_handler (e : exn) : bool :=
  match e with
  | JSONDecodeError | KeyError => true
  | _ => false
  end.

(** The [for row in reader] loop under the outer [try]: the result is
    [matching_rows] when the loop is left, with the exception that reached
    the outer handler, if any. Blank records are passed over by the
    reader. *)
Fixpoint rows_loop (fieldnames : list string) (records : list (list string))
    (fails : bool) (matching_rows : list (pydict * string))
  : list (pydict * string) * option exn :=
  match records with
  | [] => (matching_rows, if fails then Some OtherError else None)
  | [] :: records' => rows_loop fieldnames records' fails matching_rows
  | record :: records' =>
      let row := reader_row fieldnames record in
      match row_pattern row with
      | Ok (Some matched_pattern) =>
          if String.eqb matched_pattern ""
          then rows_loop fieldnames records' fails matching_rows
          else rows_loop fieldnames records' fails
                 (matching_rows ++ [(row, matched_pattern)])
      | Ok None => rows_loop fieldnames records' fails matching_rows
      | Raise e =>
          if inner_handler e
          then rows_loop fieldnames records' fails matching_rows
          else (matching_rows, Some e)
      end
  end.

(** [process_csv_file], together with the exception it reported. *)
Definition process_csv_file_reported (f : file_state)
  : list (pydict * string) * option exn :=
  match f with
  | Missing => ([], Some OtherError)
  | Present [] fails => ([], if fails then Some OtherError else None)
  | Present (header :: records) fails => rows_loop header records fails []
  end.

Definition process_csv_file (f : file_state) : list (pydict * string) :=
  fst (process_csv_file_reported f).

(** The copy of a matching row with its pattern stored. *)
Definition output_row (rp : pydict * string) : pydict :=
  dict_set (Some MPP) (CStr (snd rp)) (fst rp).

(** The [for csv_file in csv_files] loop of [main], on the pair
    [(all_matching_rows, fieldnames)]. *)
Fixpoint files_loop (fs : string -> file_state) (files : list string)
    (all_matching_rows : list pydict) (fieldnames : option (list pykey))
  : list pydict * option (list pykey) :=
  match files with
  | [] => (all_matching_rows, fieldnames)
  | csv_file :: files' =>
      if negb (file_exists (fs csv_file))
      then files_loop fs files' all_matching_rows fieldnames
      else
        let matching_rows := process_csv_file (fs csv_file) in
        match matching_rows with
        | [] => files_loop fs files' all_matching_rows fieldnames
        | (row0, _) :: _ =>
            let fieldnames' :=
              match fieldnames with
              | None => Some (dict_keys row0 ++ [Some MPP])
              | Some _ => fieldnames
              end in
            files_loop fs files'
              (all_matching_rows ++ map output_row matching_rows) fieldnames'
        end
  end.

(** The loop that looks for field names when no row matched: the header of
    the first file that exists, opens and has a first record; a file whose
    header cannot be taken is passed over by the bare [except]. *)
Fixpoint header_loop (fs : string -> file_state) (files : list string)
    (fieldnames : option (list pykey)) : option (list pykey) :=
  match files with
  | [] => fieldnames
  | csv_file :: files' =>
      match fs csv_file with
      | Present (header :: _) _ => Some (map Some header ++ [Some MPP])
      | _ => header_loop fs files' fieldnames
      end
  end.

(** Opening the output file and writing the header and the rows. The
    texts written are over the code points below U+0100, which UTF-8
    encodes, so only the writer's check of the keys can raise. *)
Definition write_rows (fieldnames : option (list pykey)) (rows : list pydict)
  : run_result :=
  match fieldnames with
  | None => RunResult [] (Some TypeError)
  | Some fn =>
      match writeheader fn with
      | Raise e => RunResult [] (Some e)
      | Ok header =>
          let (items, e) := writerows fn rows in RunResult (Line header :: items) e
      end
  end.

(** Writing the header alone. *)
Definition write_header_only (fieldnames : option (list pykey)) : run_result :=
  match fieldnames with
  | Some (k :: fn) =>
      match writeheader (k :: fn) with
      | Ok header => RunResult [Line header] None
      | Raise e => RunResult [] (Some e)
      end
  | _ => RunResult [RawText default_header] None
  end.

(** [main], for the files found in the program's directory. *)
Definition main (fs : string -> file_state) : run_result :=
  let (all_matching_rows, fieldnames) := files_loop fs csv_files [] None in
  match all_matching_rows with
  | [] =>
      let fieldnames :=
        match fieldnames with
        | Some (_ :: _) => fieldnames
        | _ => header_loop fs csv_files fieldnames
        end in
      write_header_only fieldnames
  | _ => write_rows fieldnames all_matching_rows
  end.

(** The bytes of the output file after a run. *)
Definition file_bytes (r : run_result) : string :=
  String.concat ""
    (map (fun it => match it with
                    | Line cells => writer_format cells
                    | RawText s => s
                    end) (written r)).

(** The matches kept from all the files, in file order then row order. *)
Definition kept_rows (fs : string -> file_state) : list (pydict * string) :=
  flat_map (fun csv_file => process_csv_file (fs csv_file)) csv_files.


End Consolidator.

(** ** Vocabulary of the specification *)

Definition starts_with_word (s : string) : bool :=
  hd_word (list_ascii_of_string s).

Definition ends_with_word (s : string) : bool :=
  hd_word (rev (list_ascii_of_string s)).

(** The lower-case word [w] occurs in [text] as a whole word, in any case:
    some piece of [text] is [w] up to case, and neither the character before
    it nor the character after it is a word character. *)
Definition has_word (w text : string) : Prop :=
  exists pre mid post : string,
    text = (pre ++ mid ++ post)%string
    /\ str_lower mid = w
    /\ ends_with_word pre = false
    /\ starts_with_word post = false.

(** [piece] occurs in [text]. *)
Definition occurs_in (piece text : string) : Prop :=
  exists pre post : string, text = (pre ++ piece ++ post)%string.

(** ** Vocabulary of the proofs *)

(** [st'] is reached from [st] by passing over [w]. *)
Definition reaches (st st' : mstate) (w : list ascii) : Prop :=
  rest st = w ++ rest st' /\ seen st' = rev w ++ seen st.

Definition extends (st st' : mstate) : Prop := exists w, reaches st st' w.

(** The parsed form of a run of literal characters followed by [r]. *)
Fixpoint lits (w : list ascii) (r : regex) : regex :=
  match w with
  | [] => r
  | c :: w' => Seq (Chr c) (lits w' r)
  end.

(** The parsed form of [\b] w [\b]. *)
Definition word_re (w : string) : regex :=
  Seq Bnd (lits (list_ascii_of_string w) (Seq Bnd Eps)).

(** The pattern [\b] w [\b] matches at a position exactly when [word_here]. *)
Definition word_here (w before ahead : list ascii) : bool :=
  at_boundary (MState before ahead [])
  && ci_prefix w ahead
  && at_boundary (advance (List.length w) (MState before ahead [])).

(** A non-empty list of word characters. *)
Definition wordlike (w : list ascii) : Prop :=
  w <> [] /\ Forall (fun c => is_word c = true) w.

(** [w] occurs ahead as a whole word, whatever the case. *)
Definition word_ahead (w before ahead : list ascii) : Prop :=
  exists pre mid post,
    ahead = pre ++ mid ++ post
    /\ map lower mid = map lower w
    /\ hd_word (rev pre ++ before) = false
    /\ hd_word post = false.

(** The names behind the entries of [PHONE_PATTERNS] after the first. *)
Definition COLUMN_NAMES : list string :=
  [ "phone"; "mobile"; "cell"; "tel"; "contact_number"; "phone_number";
    "handphone"; "hp_number"; "telephone"; "telephone_number"; "contact_phone";
    "customer_phone"; "recipient_phone"; "sender_phone"; "phone_no";
    "mobile_no"; "phone_num"; "mobile_num" ].

(** The cells written for a row under given field names. *)
Definition row_cells (fieldnames : list pykey) (rowdict : pydict) : list cell :=
  map (fun key => dict_get_default rowdict key (CStr "")) fieldnames.

(** Every key of the row is a field name. *)
Definition fits (fieldnames : list pykey) (rowdict : pydict) : Prop :=
  forall k, In k (dict_keys rowdict) -> In k fieldnames.

(** The first record of a file that exists, opens and is not empty. *)
Definition header_of (f : file_state) : option (list string) :=
  match f with
  | Present (header :: _) _ => Some header
  | _ => None
  end.

(** The file system [fs] with the state of [name] replaced. *)
Definition with_file (fs : string -> file_state) (name : string) (f : file_state)
  : string -> file_state :=
  fun g => if String.eqb g name then f else fs g.

(** ** Data for the examples *)

(** The JSON text of an object whose only member is [query]. *)
Definition json_query (q : string) : string :=
  ("{" ++ DQ ++ "query" ++ DQ ++ ": " ++ DQ ++ q ++ DQ ++ "}")%string.

(** A character a JSON string may hold as it is. *)
Definition plain_char (c : ascii) : bool :=
  let n := N_of_ascii c in
  N.leb 32 n && negb (N.eqb n 34) && negb (N.eqb n 92).

(** The query of a text of the form [json_query q] with [q] plain. *)
Definition query_of_text (t : string) : option string :=
  let pre := ("{" ++ DQ ++ "query" ++ DQ ++ ": " ++ DQ)%string in
  let suf := (DQ ++ "}")%string in
  let n := String.length t in
  if String.prefix pre t
     && Nat.leb (String.length pre + String.length suf) n
     && String.eqb (substring (n - String.length suf) (String.length suf) t) suf
  then
    let q := substring (String.length pre)
               (n - String.length pre - String.length suf) t in
    if forallb plain_char (list_ascii_of_string q) then Some q else None
  else None.

(** A decoder that stands for [json.loads] in the examples. It decodes the
    empty object, the array [[1]] and the texts [json_query q] as
    [json.loads] does, and reports every other text as malformed; the
    examples use no well-formed text outside these. *)
Definition fragment_loads (t : string) : result pyval :=
  if String.eqb t "{}" then Ok (PDict [])
  else if String.eqb t "[1]" then Ok (PList [PInt 1])
  else match query_of_text t with
       | Some q => Ok (PDict [("query", PStr q)])
       | None => Raise JSONDecodeError
       end.

(** The text of a field before quoting; the surplus list of a long row is
    written through [str], given here for fields without quotes or
    backslashes. *)
Definition cell_text (c : cell) : string :=
  match c with
  | CStr s => s
  | CNone => ""
  | CList l =>
      ("[" ++ String.concat ", " (map (fun s => "'" ++ s ++ "'") l) ++ "]")%string
  end.

Definition needs_quote (c : ascii) : bool :=
  Ascii.eqb c "," || Ascii.eqb c dquote || Ascii.eqb c cr || Ascii.eqb c lf.

Fixpoint double_quotes (s : string) : string :=
  match s with
  | EmptyString => EmptyString
  | String c s' =>
      if Ascii.eqb c dquote then String c (String c (double_quotes s'))
      else String c (double_quotes s')
  end.

(** A field as [csv.writer] writes it with the default dialect: quoted when
    it holds a comma, a quote or a line break, with its quotes doubled. *)
Definition csv_field (s : string) : string :=
  if existsb needs_quote (list_ascii_of_string s)
  then (DQ ++ double_quotes s ++ DQ)%string else s.

(** The line [csv.writer] writes for a record; a record of one empty field
    is written as a pair of quotes. It stands for the writer in the
    examples. *)
Definition csv_format (cells : list cell) : string :=
  let line :=
    match map cell_text cells with
    | [EmptyString] => (DQ ++ DQ)%string
    | fields => String.concat "," (map csv_field fields)
    end in
  (line ++ String cr (String lf EmptyString))%string.

(** A file system given by the states of finitely many names. *)
Fixpoint files_of (l : list (string * file_state)) (name : string) : file_state :=
  match l with
  | [] => Missing
  | (n, f) :: l' => if String.eqb n name then f else files_of l' name
  end.

Definition log_header : list string := ["id"; "additional_properties"].

Definition row_phone : list string := ["1"; json_query "select phone from t"].
Definition row_tel : list string := ["2"; json_query "SELECT tel FROM users"].
Definition row_plain : list string := ["3"; json_query "select name from employees"].
Definition row_malformed : list string := ["4"; "{bad"].
Definition row_no_query : list string := ["6"; "{}"].

(** A file whose read fails after one matching row. *)
Definition interrupted_file : file_state := Present [log_header; row_phone] true.

Definition fs_interrupted : string -> file_state :=
  files_of [ ("execute_query_05.csv", interrupted_file);
             ("execute_query_06.csv", Present [log_header; row_tel] false) ].

(** Three files, of which only the second has matches; the other two have
    columns of their own. *)
Definition fs_second_matches : string -> file_state :=
  files_of [ ("execute_query_05.csv",
               Present [["additional_properties"; "user"]; [json_query "select name from employees"; "u1"]] false);
             ("execute_query_06.csv", Present [log_header; row_plain; row_phone; row_tel] false);
             ("execute_query_07.csv",
               Present [["created_at"; "additional_properties"]; ["2024"; json_query "delete from phone"]] false) ].


(** Files without any match; the first of the list is missing. *)
Definition fs_no_match : string -> file_state :=
  files_of [ ("execute_query_06.csv", Present [log_header; row_plain; row_no_query] false);
             ("execute_query_07.csv", Present [["other"]; ["x"]] false) ].

(** A file with a malformed row between two matching rows, and the same
    file with an array in its place. *)
Definition fs_malformed_row : string -> file_state :=
  files_of [ ("execute_query_05.csv",
              Present [log_header; row_phone; row_malformed; row_tel] false) ].


(** The files of [fs_second_matches] and one more, which the program does
    not read. *)
Definition fs_with_notes : string -> file_state :=
  fun name =>
    if String.eqb name "notes.csv" then Present [["note"]; ["x"]] false
    else fs_second_matches name.

(** Every character. *)
Definition all_ascii : list ascii := map ascii_of_nat (seq 0 256).

(** Every character the expression can pass over satisfies [p]; a
    back-reference is not examined and counts as a failure of the test. *)
Fixpoint only_chars (p : ascii -> bool) (r : regex) : bool :=
  match r with
  | Eps | Bnd => true
  | Chr c => forallb (fun x => implb (ci_eqb x c) (p x)) all_ascii
  | Cls neg items => forallb (fun x => implb (cls_matches neg items x) (p x)) all_ascii
  | Seq a b => only_chars p a && only_chars p b
  | Opt a | Star a | Grp _ a => only_chars p a
  | Ref _ => false
  end.

(** Every group numbered [n] inside the expression passes only over
    characters that satisfy [p]. *)
Fixpoint group_only (p : ascii -> bool) (n : nat) (r : regex) : bool :=
  match r with
  | Eps | Bnd | Chr _ | Cls _ _ | Ref _ => true
  | Seq a b => group_only p n a && group_only p n b
  | Opt a | Star a => group_only p n a
  | Grp i a => group_only p n a && (negb (Nat.eqb i n) || only_chars p a)
  end.

(** The text captured for group [n], if any, is made of characters that
    satisfy [p]. *)
Definition caps_ok (p : ascii -> bool) (n : nat) (cs : list (nat * list ascii)) : Prop :=
  forall w, lookup_cap n cs = Some w -> forallb p w = true.

(** What [run] guarantees of the position [st'] at which it calls its
    continuation: the text [w] passed over satisfies [p] when the expression
    allows nothing else, and the captures for group [n] satisfy it. *)
Definition tracked_run (p : ascii -> bool) (n : nat) (r : regex)
    (k : mstate -> option mstate) (st res : mstate) : Prop :=
  exists st' w,
    reaches st st' w
    /\ (only_chars p r = true -> forallb p w = true)
    /\ caps_ok p n (caps st')
    /\ k st' = Some res.

(** A character that can be part of a table token: no white space, comma,
    backtick or double quote. *)
Definition token_char (x : ascii) : bool :=
  negb (is_space x || Ascii.eqb x "," || Ascii.eqb x "`" || Ascii.eqb x dquote).

(** ** Vocabulary of the further properties *)

(** The least number of characters a match of the expression passes over. *)
Fixpoint min_len (r : regex) : nat :=
  match r with
  | Eps | Bnd | Opt _ | Star _ | Ref _ => 0
  | Chr _ | Cls _ _ => 1
  | Seq a b => min_len a + min_len b
  | Grp _ a => min_len a
  end.

(** Every match of the expression passes through a group numbered [n]. *)
Fixpoint sets_group (n : nat) (r : regex) : bool :=
  match r with
  | Eps | Bnd | Chr _ | Cls _ _ | Ref _ | Opt _ | Star _ => false
  | Seq a b => sets_group n a || sets_group n b
  | Grp i a => Nat.eqb i n || sets_group n a
  end.

(** The position [st] is a position of the text [T]. *)
Definition in_text (T : list ascii) (st : mstate) : Prop :=
  rev (seen st) ++ rest st = T.

(** Every captured text is a piece of [T]. *)
Definition caps_pieces (T : list ascii) (cs : list (nat * list ascii)) : Prop :=
  forall n w, lookup_cap n cs = Some w -> exists a b, T = a ++ w ++ b.

(** What [run] guarantees of the position [st'] at which it calls its
    continuation, for a run inside the text [T]: the text passed over is at
    least [min_len r] long, [st'] is a position of [T], the captures are
    pieces of [T], and group [n] is set when it was or when the expression
    sets it. *)
Definition followed_run (T : list ascii) (n : nat) (r : regex)
    (k : mstate -> option mstate) (st res : mstate) : Prop :=
  exists st' w,
    reaches st st' w
    /\ min_len r <= List.length w
    /\ in_text T st'
    /\ caps_pieces T (caps st')
    /\ (lookup_cap n (caps st) <> None \/ sets_group n r = true ->
        lookup_cap n (caps st') <> None)
    /\ k st' = Some res.

(** The captures with every text lowered. *)
Definition lower_caps (cs : list (nat * list ascii)) : list (nat * list ascii) :=
  map (fun nw => (fst nw, map lower (snd nw))) cs.

(** The position in the lowered text that corresponds to [st]. *)
Definition lower_state (st : mstate) : mstate :=
  MState (map lower (seen st)) (map lower (rest st)) (lower_caps (caps st)).

(** The match object found in the lowered text. *)
Definition lower_match (mt : re_match) : re_match :=
  ReMatch (m_start mt) (map lower (m_text mt)) (lower_caps (m_caps mt)).

(** The expression ends with a word boundary, which only the empty
    expression may follow. *)
Fixpoint ends_at_boundary (r : regex) : bool :=
  match r with
  | Bnd => true
  | Seq a Eps => ends_at_boundary a
  | Seq _ b => ends_at_boundary b
  | _ => false
  end.

(** The expression starts with a word boundary. *)
Definition starts_at_boundary (r : regex) : bool :=
  match r with
  | Seq Bnd _ => true
  | _ => false
  end.

(** The continuation [k], called at a word boundary only. *)
Definition at_boundary_only (k : mstate -> option mstate) (st : mstate)
  : option mstate :=
  if at_boundary st then k st else None.

(** A pattern for whole identifiers: it starts and ends with a word
    boundary and passes over word characters only, one at least. *)
Definition identifier_pattern (pattern : string) : bool :=
  match re_compile pattern with
  | Some r =>
      starts_at_boundary r && ends_at_boundary r && only_chars is_word r
      && group_only is_word 0 r && Nat.leb 1 (min_len r)
  | None => false
  end.

(** [s] is a whole identifier of [text]: a non-empty run of word characters
    with no word character next to it on either side. *)
Definition whole_identifier (s text : string) : Prop :=
  exists pre post : string,
    text = (pre ++ s ++ post)%string
    /\ ends_with_word pre = false
    /\ starts_with_word post = false
    /\ forallb is_word (list_ascii_of_string s) = true
    /\ s <> "".

(** ** Further data for the examples *)

(** The JSON text of an object whose only member is [query], with the text
    [v] of a value that is no string. *)
Definition json_query_value (v : string) : string :=
  ("{" ++ DQ ++ "query" ++ DQ ++ ": " ++ v ++ "}")%string.

(** [fragment_loads], and the objects whose [query] is [5] or [null]. *)
Definition value_loads (t : string) : result pyval :=
  if String.eqb t (json_query_value "5") then Ok (PDict [("query", PInt 5)])
  else if String.eqb t (json_query_value "null") then Ok (PDict [("query", PNone)])
  else fragment_loads t.

Definition row_number : list string := ["7"; json_query_value "5"].
Definition row_null : list string := ["8"; json_query_value "null"].

(** A first file that cannot be opened, before a file without matches. *)
Definition fs_unopened_first : string -> file_state :=
  files_of [ ("execute_query_05.csv", Present [] true);
             ("execute_query_06.csv", Present [log_header; row_plain] false) ].

(** A header that already has the column the program adds. *)
Definition header_with_pattern : list string :=
  ["id"; "matched_phone_pattern"; "additional_properties"].



(** ** Texts beyond U+00FF *)

(** The classifier on texts that may also hold three characters above
    U+00FF. [str.lower()] turns U+0130 into two characters, the second of
    which is no word character, so lower-casing can create a word boundary;
    a lone surrogate, which [json.loads] yields for the escape [\ud800],
    cannot be encoded as UTF-8. The patterns are those of the program,
    compiled by [re_compile]; what changes is the character tables. *)
Module Wide.

(** A character: a code point below U+0100, U+0130 (LATIN CAPITAL LETTER I
    WITH DOT ABOVE), U+0307 (COMBINING DOT ABOVE) or the surrogate U+D800. *)
Inductive wchar : Type :=
| Narrow (c : ascii)
| U0130
| U0307
| UD800.

Definition wtext : Type := list wchar.

(** The text with the characters of [s]. *)
Definition of_string (s : string) : wtext := map Narrow (list_ascii_of_string s).

Definition wchar_eqb (x y : wchar) : bool :=
  match x, y with
  | Narrow a, Narrow b => Ascii.eqb a b
  | U0130, U0130 => true
  | U0307, U0307 => true
  | UD800, UD800 => true
  | _, _ => false
  end.


(** [str.isalnum() or '_']: U+0130 is a letter, U+0307 a combining mark. *)
Definition is_word (x : wchar) : bool :=
  match x with
  | Narrow c => Chars.is_word c
  | U0130 => true
  | U0307 | UD800 => false
  end.

Definition is_space (x : wchar) : bool :=
  match x with
  | Narrow c => Chars.is_space c
  | _ => false
  end.

Definition is_digit (x : wchar) : bool :=
  match x with
  | Narrow c => Chars.is_digit c
  | _ => false
  end.

(** The lower case of one character as [re.IGNORECASE] takes it: one
    character, the simple mapping of the Unicode database. *)
Definition lower (x : wchar) : wchar :=
  match x with
  | Narrow c => Narrow (Chars.lower c)
  | U0130 => Narrow "i"
  | U0307 => U0307
  | UD800 => UD800
  end.

(** [str.lower()] on one character: the full mapping, which gives U+0130
    the two characters [i] and U+0307. *)
Definition lower_full (x : wchar) : wtext :=
  match x with
  | Narrow c => [Narrow (Chars.lower c)]
  | U0130 => [Narrow "i"; U0307]
  | U0307 => [U0307]
  | UD800 => [UD800]
  end.

(** [str.lower()]. *)
Definition str_lower (text : wtext) : wtext := flat_map lower_full text.

(** [text.encode('utf-8')] succeeds: the text holds no surrogate. *)
Definition utf8_encodable (text : wtext) : bool :=
  forallb (fun x => match x with UD800 => false | _ => true end) text.

(** The character [x] of the text matches the character [c] of a pattern
    under [re.IGNORECASE]. *)
Definition ci_eqb (x : wchar) (c : ascii) : bool :=
  wchar_eqb (lower x) (Narrow (Chars.lower c)).

Record mstate : Type := MState {
  seen : wtext;
  rest : wtext;
  caps : list (nat * wtext)
}.

Definition item_matches (x : wchar) (it : cls_item) : bool :=
  match it with
  | ItChar c => ci_eqb x c
  | ItWord => is_word x
  | ItSpace => is_space x
  | ItDigit => is_digit x
  end.

Definition cls_matches (neg : bool) (items : list cls_item) (x : wchar) : bool :=
  xorb neg (existsb (item_matches x) items).

Definition hd_word (l : wtext) : bool :=
  match l with c :: _ => is_word c | [] => false end.

Definition at_boundary (st : mstate) : bool :=
  xorb (hd_word (seen st)) (hd_word (rest st)).

Definition advance (n : nat) (st : mstate) : mstate :=
  MState (rev (firstn n (rest st)) ++ seen st) (skipn n (rest st)) (caps st).

Definition consumed (st st' : mstate) : wtext :=
  firstn (List.length (rest st) - List.length (rest st')) (rest st).

Fixpoint lookup_cap (n : nat) (cs : list (nat * wtext)) : option wtext :=
  match cs with
  | [] => None
  | (i, w) :: cs' => if Nat.eqb i n then Some w else lookup_cap n cs'
  end.

(** [w] is, up to case, a prefix of [l]. *)
Fixpoint ci_prefix (w l : wtext) : bool :=
  match w, l with
  | [], _ => true
  | a :: w', b :: l' => wchar_eqb (lower b) (lower a) && ci_prefix w' l'
  | _ :: _, [] => false
  end.

Fixpoint star_loop (body : (mstate -> option mstate) -> mstate -> option mstate)
    (k : mstate -> option mstate) (fuel : nat) (st0 : mstate) {struct fuel}
  : option mstate :=
  match fuel with
  | O => k st0
  | S fuel' =>
      match body (fun st1 =>
                    if Nat.ltb (List.length (rest st1)) (List.length (rest st0))
                    then star_loop body k fuel' st1 else None) st0 with
      | Some res => Some res
      | None => k st0
      end
  end.

(** The backtracking matcher of [Re], on wider texts. *)
Fixpoint run (r : regex) (k : mstate -> option mstate) (st : mstate) {struct r}
  : option mstate :=
  match r with
  | Eps => k st
  | Chr c =>
      match rest st with
      | x :: _ => if ci_eqb x c then k (advance 1 st) else None
      | [] => None
      end
  | Cls neg items =>
      match rest st with
      | x :: _ => if cls_matches neg items x then k (advance 1 st) else None
      | [] => None
      end
  | Bnd => if at_boundary st then k st else None
  | Seq a b => run a (run b k) st
  | Opt a =>
      match run a k st with
      | Some res => Some res
      | None => k st
      end
  | Star a => star_loop (run a) k (S (List.length (rest st))) st
  | Grp n a =>
      run a (fun st1 => k (MState (seen st1) (rest st1)
                                  ((n, consumed st st1) :: caps st1))) st
  | Ref n =>
      match lookup_cap n (caps st) with
      | Some w => if ci_prefix w (rest st) then k (advance (List.length w) st)
                  else None
      | None => None
      end
  end.

Record re_match : Type := ReMatch {
  m_start : nat;
  m_text : wtext;
  m_caps : list (nat * wtext)
}.

Fixpoint search_from (r : regex) (before ahead : wtext) : option re_match :=
  let st := MState before ahead [] in
  match run r Some st with
  | Some st' => Some (ReMatch (List.length before) (consumed st st') (caps st'))
  | None =>
      match ahead with
      | [] => None
      | c :: ahead' => search_from r (c :: before) ahead'
      end
  end.

(** [re.search(pattern, text, re.IGNORECASE)]. *)
Definition re_search (pattern : string) (text : wtext) : option re_match :=
  match re_compile pattern with
  | Some r => search_from r [] text
  | None => None
  end.

Definition group0 (mt : re_match) : wtext := m_text mt.

Definition group (n : nat) (mt : re_match) : option wtext :=
  lookup_cap n (m_caps mt).

Fixpoint column_loop (patterns : list string) (query_text : wtext) : option wtext :=
  match patterns with
  | [] => None
  | pattern :: patterns' =>
      match re_search pattern query_text with
      | Some mt => Some (group0 mt)
      | None => column_loop patterns' query_text
      end
  end.

Fixpoint table_loop (patterns : list string) (query_text : wtext) : option wtext :=
  match patterns with
  | [] => None
  | table_pattern :: patterns' =>
      match re_search (table_regex table_pattern) query_text with
      | Some table_match =>
          Some (of_string "SELECT * from "
                ++ match group 2 table_match with
                   | Some t => t
                   | None => of_string "None"
                   end)
      | None => table_loop patterns' query_text
      end
  end.

(** [find_phone_pattern_in_query] on a [str]. *)
Definition find_phone_pattern_in_query (query_text : wtext) : option wtext :=
  match query_text with
  | [] => None
  | _ =>
      let query_lower := str_lower query_text in
      match re_search "\bselect\b" query_lower with
      | None => None
      | Some _ =>
          match column_loop PHONE_PATTERNS query_text with
          | Some matched_text => Some matched_text
          | None =>
              match re_search "select\s+\*" query_lower with
              | Some _ => table_loop PHONE_TABLES query_text
              | None => None
              end
          end
      end
  end.

(** The lower-case word [w] occurs in [text] as a whole word, in any case. *)
Definition has_word (w : string) (text : wtext) : Prop :=
  exists pre mid post : wtext,
    text = pre ++ mid ++ post
    /\ str_lower mid = of_string w
    /\ hd_word (rev pre) = false
    /\ hd_word post = false.



End Wide.

(** * Properties *)

(** ** Strings and lists of characters *)

Lemma list_of_append (a b : string) :
  list_ascii_of_string (a ++ b)%string = list_ascii_of_string a ++ list_ascii_of_string b.
Proof. induction a as [|c a IH]; simpl; [reflexivity | now rewrite IH]. Qed.

Lemma string_of_app (a b : list ascii) :
  string_of_list_ascii (a ++ b) = (string_of_list_ascii a ++ string_of_list_ascii b)%string.
Proof. induction a as [|c a IH]; simpl; [reflexivity | now rewrite IH]. Qed.

(** ** The matcher only moves forward *)

Lemma extends_refl st : extends st st.
Proof. exists []; split; reflexivity. Qed.

Lemma extends_trans a b c : extends a b -> extends b c -> extends a c.
Proof.
  intros [w1 [R1 S1]] [w2 [R2 S2]]. exists (w1 ++ w2). split.
  - rewrite R1, R2. now rewrite app_assoc.
  - rewrite S2, S1, rev_app_distr. now rewrite app_assoc.
Qed.

Lemma extends_advance n st : extends st (advance n st).
Proof.
  exists (firstn n (rest st)). split; simpl.
  - symmetry. apply firstn_skipn.
  - reflexivity.
Qed.

Lemma extends_caps st c : extends st (MState (seen st) (rest st) c).
Proof. exists []; split; reflexivity. Qed.

Lemma star_loop_forward body k :
  (forall k' st res, body k' st = Some res ->
     exists st', extends st st' /\ k' st' = Some res) ->
  forall fuel st res, star_loop body k fuel st = Some res ->
    exists st', extends st st' /\ k st' = Some res.
Proof.
  intros Hbody. induction fuel as [|fuel IH]; intros st res H; simpl in H.
  - exists st. split; [apply extends_refl | exact H].
  - destruct (body _ st) as [r|] eqn:E.
    + injection H as <-. apply Hbody in E. destruct E as [st1 [X1 E1]].
      destruct (Nat.ltb _ _); [|discriminate].
      apply IH in E1. destruct E1 as [st2 [X2 E2]].
      exists st2. split; [eapply extends_trans; eassumption | exact E2].
    + exists st. split; [apply extends_refl | exact H].
Qed.

Lemma run_forward r :
  forall k st res, run r k st = Some res ->
    exists st', extends st st' /\ k st' = Some res.
Proof.
  induction r as [|c|neg items| |a IHa b IHb|a IHa|a IHa|n a IHa|n];
    intros k st res H; cbn [run] in H.
  - exists st. split; [apply extends_refl | exact H].
  - destruct (rest st) eqn:E; [discriminate|].
    destruct (ci_eqb _ _); [|discriminate].
    exists (advance 1 st). split; [apply extends_advance | exact H].
  - destruct (rest st) eqn:E; [discriminate|].
    destruct (cls_matches _ _ _); [|discriminate].
    exists (advance 1 st). split; [apply extends_advance | exact H].
  - destruct (at_boundary st); [|discriminate].
    exists st. split; [apply extends_refl | exact H].
  - apply IHa in H. destruct H as [st1 [X1 H]].
    apply IHb in H. destruct H as [st2 [X2 H]].
    exists st2. split; [eapply extends_trans; eassumption | exact H].
  - destruct (run a k st) eqn:E.
    + injection H as <-. now apply IHa in E.
    + exists st. split; [apply extends_refl | exact H].
  - eapply star_loop_forward; [|exact H]. intros k' st0 res0. apply IHa.
  - apply IHa in H. destruct H as [st1 [X1 H]].
    eexists. split; [|exact H].
    eapply extends_trans; [exact X1 | apply extends_caps].
  - destruct (lookup_cap n (caps st)); [|discriminate].
    destruct (ci_prefix _ _); [|discriminate].
    eexists. split; [apply extends_advance | exact H].
Qed.

Lemma consumed_reaches st st' w : reaches st st' w -> consumed st st' = w.
Proof.
  intros [R _]. unfold consumed. rewrite R, length_app.
  replace (List.length w + List.length (rest st') - List.length (rest st'))
    with (List.length w) by lia.
  rewrite firstn_app, Nat.sub_diag, firstn_all. simpl. now rewrite app_nil_r.
Qed.

(** A match found by [search_from] is a piece of the text ahead. *)
Lemma search_from_slice r : forall ahead before mt,
  search_from r before ahead = Some mt ->
  exists pre post, ahead = pre ++ m_text mt ++ post
                   /\ m_start mt = List.length before + List.length pre.
Proof.
  induction ahead as [|c ahead IH]; intros before mt H; simpl in H.
  - destruct (run r Some _) as [st'|] eqn:E; [|discriminate].
    injection H as <-. apply run_forward in E.
    destruct E as [st1 [[w X] E]]. injection E as ->.
    rewrite (consumed_reaches _ _ _ X). destruct X as [R _]. simpl in *.
    exists [], (rest st'). split; [exact R | simpl; lia].
  - destruct (run r Some _) as [st'|] eqn:E.
    + injection H as <-. apply run_forward in E.
      destruct E as [st1 [[w X] E]]. injection E as ->.
      rewrite (consumed_reaches _ _ _ X). destruct X as [R _]. simpl in *.
      exists [], (rest st'). split; [exact R | simpl; lia].
    + apply IH in H. destruct H as [pre [post [A B]]].
      exists (c :: pre), post. split; [simpl; now rewrite A | simpl in *; lia].
Qed.

(** [match.group(0)] is a piece of the text searched, at [m_start]. *)
Lemma re_search_slice pattern text mt :
  re_search pattern text = Some mt ->
  exists pre post, text = (pre ++ group0 mt ++ post)%string
                   /\ m_start mt = String.length pre.
Proof.
  unfold re_search. destruct (re_compile pattern) as [r|]; [|discriminate].
  intros H. apply search_from_slice in H. destruct H as [pre [post [A B]]].
  exists (string_of_list_ascii pre), (string_of_list_ascii post). split.
  - unfold group0. rewrite <- !string_of_app, <- A.
    symmetry. apply string_of_list_ascii_of_string.
  - simpl in B. rewrite B. clear.
    induction pre; simpl; [reflexivity | now rewrite IHpre].
Qed.

(** ** Whole-word patterns *)

Lemma is_word_lower c : is_word (lower c) = is_word c.
Proof. destruct c as [[] [] [] [] [] [] [] []]; reflexivity. Qed.

Lemma lower_lower c : lower (lower c) = lower c.
Proof. destruct c as [[] [] [] [] [] [] [] []]; reflexivity. Qed.

Lemma ci_eqb_eq x y : ci_eqb x y = true <-> lower x = lower y.
Proof. unfold ci_eqb. apply Ascii.eqb_eq. Qed.

Lemma ci_eqb_word x y : ci_eqb x y = true -> is_word x = is_word y.
Proof.
  intros H. apply ci_eqb_eq in H.
  rewrite <- (is_word_lower x), H. apply is_word_lower.
Qed.

Lemma advance_0 st : advance 0 st = st.
Proof. destruct st; reflexivity. Qed.

Lemma advance_S n st x xs :
  rest st = x :: xs -> advance n (advance 1 st) = advance (S n) st.
Proof.
  intros E. unfold advance. rewrite E. simpl.
  now rewrite <- app_assoc.
Qed.

Lemma ci_prefix_split w : forall l,
  ci_prefix w l = true <->
  exists mid post, l = mid ++ post /\ map lower mid = map lower w.
Proof.
  induction w as [|a w IH]; intros l; simpl.
  - split; [intros _; exists [], l; split; reflexivity | reflexivity].
  - destruct l as [|b l].
    + split; [discriminate|]. intros [mid [post [A B]]].
      destruct mid; simpl in *; discriminate.
    + rewrite andb_true_iff, ci_eqb_eq, IH. split.
      * intros [H [mid [post [A B]]]]. exists (b :: mid), post.
        split; simpl; [now rewrite A | now rewrite H, B].
      * intros [mid [post [A B]]]. destruct mid as [|m mid]; [discriminate|].
        simpl in *. injection A as -> ->. injection B as B1 B2.
        split; [exact B1 | exists mid, post; split; [reflexivity | exact B2]].
Qed.

Lemma ci_prefix_firstn w l :
  ci_prefix w l = true ->
  map lower (firstn (List.length w) l) = map lower w
  /\ List.length w <= List.length l.
Proof.
  revert l. induction w as [|a w IH]; intros l H; simpl in *.
  - split; [reflexivity | lia].
  - destruct l as [|b l]; [discriminate|].
    apply andb_true_iff in H. destruct H as [H1 H2].
    apply ci_eqb_eq in H1. apply IH in H2. destruct H2 as [H2 H3].
    simpl. rewrite H1, H2. split; [reflexivity | lia].
Qed.

Lemma run_lits w r k : forall st,
  run (lits w r) k st =
  if ci_prefix w (rest st) then run r k (advance (List.length w) st) else None.
Proof.
  induction w as [|c w IH]; intros st.
  - simpl lits. simpl ci_prefix. simpl List.length. now rewrite advance_0.
  - simpl lits. cbn [run]. destruct (rest st) as [|x xs] eqn:E; [reflexivity|].
    simpl ci_prefix. destruct (ci_eqb x c); [|reflexivity].
    rewrite IH. simpl andb.
    replace (rest (advance 1 st)) with xs by (unfold advance; now rewrite E).
    simpl List.length. now rewrite (advance_S _ _ _ _ E).
Qed.

Lemma run_word w before ahead :
  run (word_re w) Some (MState before ahead []) =
  if word_here (list_ascii_of_string w) before ahead
  then Some (advance (String.length w) (MState before ahead [])) else None.
Proof.
  unfold word_re, word_here. cbn [run]. rewrite run_lits. cbn [run rest].
  replace (List.length (list_ascii_of_string w)) with (String.length w)
    by (clear; induction w; simpl; congruence).
  destruct (at_boundary (MState before ahead [])); [|reflexivity].
  destruct (ci_prefix _ ahead); [|reflexivity].
  simpl andb. destruct (at_boundary _); reflexivity.
Qed.

Lemma map_lower_word w mid :
  map lower mid = map lower w -> Forall (fun c => is_word c = true) w ->
  Forall (fun c => is_word c = true) mid.
Proof.
  revert mid. induction w as [|a w IH]; intros mid E F; destruct mid as [|b mid];
    try discriminate; constructor.
  - simpl in E. injection E as E1 E2. inversion F; subst.
    rewrite <- (is_word_lower b), E1, is_word_lower. assumption.
  - simpl in E. injection E as E1 E2. inversion F; subst. now apply IH.
Qed.

Lemma hd_word_rev_app mid l :
  mid <> [] -> Forall (fun c => is_word c = true) mid ->
  hd_word (rev mid ++ l) = true.
Proof.
  intros Hne F. destruct (rev mid) as [|c t] eqn:E.
  - apply (f_equal (@rev _)) in E. rewrite rev_involutive in E. now subst.
  - simpl. rewrite Forall_forall in F. apply F. apply in_rev. rewrite E. now left.
Qed.

Lemma word_here_iff w before ahead :
  wordlike w ->
  word_here w before ahead = true <->
  exists mid post, ahead = mid ++ post /\ map lower mid = map lower w
                   /\ hd_word before = false /\ hd_word post = false.
Proof.
  intros [Hne F]. unfold word_here. rewrite !andb_true_iff. split.
  - intros [[B1 P] B2]. pose proof (ci_prefix_firstn _ _ P) as [E L].
    exists (firstn (List.length w) ahead), (skipn (List.length w) ahead).
    assert (Fm : Forall (fun c => is_word c = true) (firstn (List.length w) ahead))
      by (eapply map_lower_word; eassumption).
    assert (Nm : firstn (List.length w) ahead <> []).
    { intros Z. rewrite Z in E. destruct w; [now apply Hne | discriminate]. }
    split; [symmetry; apply firstn_skipn|]. split; [exact E|].
    unfold at_boundary, word_before, word_after, advance in *.
    cbn [seen rest] in *.
    rewrite hd_word_rev_app in B2 by assumption.
    split.
    + destruct (firstn (List.length w) ahead) as [|m ms] eqn:Ef; [now elim Nm|].
      destruct ahead as [|a ahead']; [destruct w; discriminate|].
      destruct w as [|w0 w']; [now elim Hne|]. simpl in Ef. injection Ef as -> _.
      inversion Fm; subst. simpl hd_word in B1 at 2. rewrite H1 in B1.
      now destruct (hd_word before).
    + now destruct (hd_word (skipn _ ahead)).
  - intros [mid [post [A [E [H1 H2]]]]].
    assert (Fm : Forall (fun c => is_word c = true) mid)
      by (eapply map_lower_word; eassumption).
    assert (Lm : List.length mid = List.length w).
    { apply (f_equal (@List.length _)) in E. now rewrite !length_map in E. }
    assert (Nm : mid <> []).
    { intros Z. subst mid. destruct w; [now apply Hne | discriminate]. }
    assert (P : ci_prefix w ahead = true).
    { apply ci_prefix_split. exists mid, post. now split. }
    split; [split; [|exact P]|].
    + unfold at_boundary, word_before, word_after. cbn [seen rest]. subst ahead.
      destruct mid as [|m ms]; [now elim Nm|]. inversion Fm; subst.
      simpl. rewrite H3, H1. reflexivity.
    + unfold at_boundary, word_before, word_after, advance. cbn [seen rest].
      subst ahead.
      rewrite <- Lm, firstn_app, Nat.sub_diag, firstn_all, skipn_app,
        Nat.sub_diag, skipn_all. simpl firstn. simpl skipn. rewrite app_nil_r.
      rewrite hd_word_rev_app by assumption. simpl app. now rewrite H2.
Qed.

Lemma search_word w : wordlike (list_ascii_of_string w) ->
  forall ahead before,
    search_from (word_re w) before ahead <> None <->
    word_ahead (list_ascii_of_string w) before ahead.
Proof.
  intros W. induction ahead as [|c ahead IH]; intros before;
    cbn [search_from]; rewrite run_word;
    destruct (word_here _ before _) eqn:E.
  - split; [intros _ | discriminate].
    apply (word_here_iff _ _ _ W) in E. destruct E as [mid [post [A [B [C D]]]]].
    exists [], mid, post. now repeat split.
  - split; [congruence|]. intros [pre [mid [post [A [B [C D]]]]]].
    destruct pre; [|discriminate]. simpl in *.
    assert (word_here (list_ascii_of_string w) before [] = true); [|congruence].
    apply (word_here_iff _ _ _ W). exists mid, post. now repeat split.
  - split; [intros _ | discriminate].
    apply (word_here_iff _ _ _ W) in E. destruct E as [mid [post [A [B [C D]]]]].
    exists [], mid, post. now repeat split.
  - rewrite IH. split.
    + intros [pre [mid [post [A [B [C D]]]]]]. exists (c :: pre), mid, post.
      repeat split; try assumption; simpl; [now rewrite A | now rewrite <- app_assoc].
    + intros [pre [mid [post [A [B [C D]]]]]]. destruct pre as [|p pre].
      * assert (word_here (list_ascii_of_string w) before (c :: ahead) = true);
          [|congruence].
        apply (word_here_iff _ _ _ W). exists mid, post. now repeat split.
      * simpl in A. injection A as -> ->. exists pre, mid, post.
        repeat split; try assumption. simpl in C. now rewrite <- app_assoc in C.
Qed.

(** ** Whole words in strings *)

Lemma hd_word_map_lower l : hd_word (map lower l) = hd_word l.
Proof. destruct l; simpl; [reflexivity | apply is_word_lower]. Qed.

Lemma map_lower_idem l : map lower (map lower l) = map lower l.
Proof. rewrite map_map. apply map_ext. apply lower_lower. Qed.

Lemma word_ahead_lower w l :
  word_ahead w [] (map lower l) <-> word_ahead w [] l.
Proof.
  split; intros [pre [mid [post [A [B [C D]]]]]].
  - apply map_eq_app in A. destruct A as [pre0 [r0 [-> [<- A]]]].
    apply map_eq_app in A. destruct A as [mid0 [post0 [-> [<- <-]]]].
    exists pre0, mid0, post0. rewrite map_lower_idem in B.
    rewrite app_nil_r in *. rewrite <- map_rev, hd_word_map_lower in C.
    rewrite hd_word_map_lower in D. now repeat split.
  - exists (map lower pre), (map lower mid), (map lower post). subst l.
    rewrite !map_app, map_lower_idem. rewrite app_nil_r in *.
    rewrite <- map_rev, !hd_word_map_lower. now repeat split.
Qed.

Lemma list_of_str_lower s :
  list_ascii_of_string (str_lower s) = map lower (list_ascii_of_string s).
Proof. unfold str_lower. apply list_ascii_of_string_of_list_ascii. Qed.

Lemma has_word_ahead w text :
  str_lower w = w ->
  has_word w text <->
  word_ahead (list_ascii_of_string w) [] (list_ascii_of_string text).
Proof.
  intros Hw. apply (f_equal list_ascii_of_string) in Hw.
  rewrite list_of_str_lower in Hw. split.
  - intros [pre [mid [post [A [B [C D]]]]]].
    exists (list_ascii_of_string pre), (list_ascii_of_string mid),
      (list_ascii_of_string post).
    rewrite A, !list_of_append, app_nil_r. repeat split; try assumption.
    rewrite Hw, <- B. symmetry. apply list_of_str_lower.
  - intros [pre [mid [post [A [B [C D]]]]]].
    exists (string_of_list_ascii pre), (string_of_list_ascii mid),
      (string_of_list_ascii post).
    unfold str_lower, ends_with_word, starts_with_word.
    rewrite !list_ascii_of_string_of_list_ascii, <- !string_of_app, <- A.
    rewrite string_of_list_ascii_of_string, B, Hw, string_of_list_ascii_of_string.
    rewrite app_nil_r in C. now repeat split.
Qed.

(** Searching [\b] w [\b] in a text finds a match exactly when the text has
    the whole word [w]. *)
Lemma re_search_word pattern w text :
  re_compile pattern = Some (word_re w) ->
  wordlike (list_ascii_of_string w) -> str_lower w = w ->
  re_search pattern text <> None <-> has_word w text.
Proof.
  intros Hc W L. unfold re_search. rewrite Hc, (search_word _ W).
  symmetry. now apply has_word_ahead.
Qed.

(** The same search in the lowered text. *)
Lemma re_search_word_lower pattern w text :
  re_compile pattern = Some (word_re w) ->
  wordlike (list_ascii_of_string w) -> str_lower w = w ->
  re_search pattern (str_lower text) <> None <-> has_word w text.
Proof.
  intros Hc W L. unfold re_search. rewrite Hc, (search_word _ W).
  rewrite list_of_str_lower, word_ahead_lower.
  symmetry. now apply has_word_ahead.
Qed.

Lemma wordlike_select : wordlike (list_ascii_of_string "select").
Proof. split; [discriminate | repeat constructor]. Qed.

Lemma select_search text :
  re_search "\bselect\b" (str_lower text) <> None <-> has_word "select" text.
Proof.
  apply re_search_word_lower; [reflexivity | apply wordlike_select | reflexivity].
Qed.

Lemma consumed_advance n st :
  n <= List.length (rest st) -> consumed st (advance n st) = firstn n (rest st).
Proof.
  intros L. unfold consumed, advance. cbn [rest].
  rewrite length_skipn. f_equal. lia.
Qed.

(** The text matched by [\b] w [\b] is [w] up to case. *)
Lemma search_word_text w : forall ahead before mt,
  search_from (word_re w) before ahead = Some mt ->
  map lower (m_text mt) = map lower (list_ascii_of_string w).
Proof.
  assert (Len : List.length (list_ascii_of_string w) = String.length w)
    by (induction w; simpl; congruence).
  assert (Here : forall before ahead mt,
    (if word_here (list_ascii_of_string w) before ahead
     then Some (advance (String.length w) (MState before ahead [])) else None)
    = Some mt ->
    map lower (consumed (MState before ahead []) mt)
    = map lower (list_ascii_of_string w)).
  { intros before ahead mt H.
    destruct (word_here _ _ _) eqn:E; [|discriminate]. injection H as <-.
    unfold word_here in E. rewrite !andb_true_iff in E. destruct E as [[_ P] _].
    apply ci_prefix_firstn in P. destruct P as [P L]. rewrite Len in *.
    rewrite consumed_advance by exact L. exact P. }
  induction ahead as [|c ahead IH]; intros before mt H;
    cbn [search_from] in H; rewrite run_word in H.
  - destruct (if word_here _ _ _ then _ else _) as [st'|] eqn:E; [|discriminate].
    injection H as <-. cbn [m_text]. now apply Here.
  - destruct (if word_here _ _ _ then _ else _) as [st'|] eqn:E.
    + injection H as <-. cbn [m_text]. now apply Here.
    + now apply IH in H.
Qed.

(** ** The classifier *)

Lemma column_loop_first query_text pattern mt : forall before after,
  (forall p, In p before -> re_search p query_text = None) ->
  re_search pattern query_text = Some mt ->
  column_loop (before ++ pattern :: after) query_text = Some (group0 mt).
Proof.
  induction before as [|p before IH]; intros after Hb Hp; simpl.
  - now rewrite Hp.
  - rewrite (Hb p) by now left. apply IH; [|exact Hp].
    intros q Hq. apply Hb. now right.
Qed.

Lemma column_loop_none query_text : forall patterns,
  column_loop patterns query_text = None <->
  forall p, In p patterns -> re_search p query_text = None.
Proof.
  induction patterns as [|p ps IH]; simpl.
  - split; [intros _ q [] | reflexivity].
  - destruct (re_search p query_text) eqn:E.
    + split; [discriminate|]. intros H. specialize (H p (or_introl eq_refl)).
      congruence.
    + rewrite IH. split.
      * intros H q [<-|Hq]; [exact E | now apply H].
      * intros H q Hq. apply H. now right.
Qed.

Lemma has_word_select_nonempty : ~ has_word "select" "".
Proof. intros H. apply select_search in H. apply H. reflexivity. Qed.

Lemma find_str_unfold text :
  find_phone_pattern_in_query (PStr text) = Ok (find_in_text text).
Proof.
  unfold find_phone_pattern_in_query. destruct text; reflexivity.
Qed.

(** ** The fuel of a repetition is enough *)

(** The matcher calls its continuation only at positions at or after the
    current one. *)
Lemma star_loop_local body :
  (forall k1 k2 st,
      (forall st', List.length (rest st') <= List.length (rest st) -> k1 st' = k2 st') ->
      body k1 st = body k2 st) ->
  forall fuel k1 k2 st,
    (forall st', List.length (rest st') <= List.length (rest st) -> k1 st' = k2 st') ->
    star_loop body k1 fuel st = star_loop body k2 fuel st.
Proof.
  intros Hbody. induction fuel as [|fuel IH]; intros k1 k2 st H; simpl.
  - apply H. lia.
  - rewrite (H st) by lia.
    rewrite (Hbody _ (fun st1 =>
               if Nat.ltb (List.length (rest st1)) (List.length (rest st))
               then star_loop body k2 fuel st1 else None) st); [reflexivity|].
    intros st' L. destruct (Nat.ltb _ _) eqn:E; [|reflexivity].
    apply IH. intros st'' L'. apply H. lia.
Qed.

Lemma run_local r : forall k1 k2 st,
  (forall st', List.length (rest st') <= List.length (rest st) -> k1 st' = k2 st') ->
  run r k1 st = run r k2 st.
Proof.
  induction r as [|c|neg items| |a IHa b IHb|a IHa|a IHa|n a IHa|n];
    intros k1 k2 st H; cbn [run].
  - apply H. lia.
  - destruct (rest st) as [|x xs] eqn:E; [reflexivity|].
    destruct (ci_eqb x c); [|reflexivity]. apply H.
    unfold advance. cbn [rest]. rewrite E. simpl. lia.
  - destruct (rest st) as [|x xs] eqn:E; [reflexivity|].
    destruct (cls_matches neg items x); [|reflexivity]. apply H.
    unfold advance. cbn [rest]. rewrite E. simpl. lia.
  - destruct (at_boundary st); [|reflexivity]. apply H. lia.
  - apply IHa. intros st' L. apply IHb. intros st'' L'. apply H. lia.
  - rewrite (IHa k1 k2 st H). rewrite (H st) by lia. reflexivity.
  - apply star_loop_local; [exact IHa | exact H].
  - apply IHa. intros st' L. apply H. exact L.
  - destruct (lookup_cap n (caps st)); [|reflexivity].
    destruct (ci_prefix _ _); [|reflexivity]. apply H.
    unfold advance. cbn [rest]. rewrite length_skipn. lia.
Qed.

(** More fuel than there are characters ahead changes nothing: the fuel
    given by [run] to a repetition never runs out. *)
Lemma star_loop_fuel a k : forall fuel1 fuel2 st,
  List.length (rest st) < fuel1 -> List.length (rest st) < fuel2 ->
  star_loop (run a) k fuel1 st = star_loop (run a) k fuel2 st.
Proof.
  induction fuel1 as [|fuel1 IH]; intros fuel2 st L1 L2; [lia|].
  destruct fuel2 as [|fuel2]; [lia|]. simpl.
  rewrite (run_local a _ (fun st1 =>
             if Nat.ltb (List.length (rest st1)) (List.length (rest st))
             then star_loop (run a) k fuel2 st1 else None) st); [reflexivity|].
  intros st' L. destruct (Nat.ltb _ _) eqn:E; [|reflexivity].
  apply Nat.ltb_lt in E. apply IH; lia.
Qed.

(** ** The column names *)

Lemma phone_patterns_names :
  PHONE_PATTERNS
  = "\bto_contact(?:_\w+)?\b" :: map (fun w => ("\b" ++ w ++ "\b")%string) COLUMN_NAMES.
Proof. reflexivity. Qed.

(** X3. On texts over the code points below U+0100: the patterns of
    [PHONE_PATTERNS] after the first are the names of [COLUMN_NAMES], each
    between two word boundaries, and each of them finds its name as a whole
    word, in any case; what it matches is the name up to case. *)
Theorem column_name_whole_word :
  tl PHONE_PATTERNS = map (fun name => ("\b" ++ name ++ "\b")%string) COLUMN_NAMES
  /\ forall pattern text,
       In pattern (tl PHONE_PATTERNS) ->
       exists name,
         In name COLUMN_NAMES
         /\ pattern = ("\b" ++ name ++ "\b")%string
         /\ (re_search pattern text <> None <-> has_word name text)
         /\ (forall mt, re_search pattern text = Some mt ->
               str_lower (group0 mt) = name).
Proof.
  split; [reflexivity|]. intros pattern text Hp.
  rewrite phone_patterns_names in Hp. cbn [tl] in Hp.
  apply in_map_iff in Hp. destruct Hp as [name [<- H]].
  exists name. split; [exact H|]. split; [reflexivity|].
  assert (C : re_compile ("\b" ++ name ++ "\b") = Some (word_re name)
              /\ wordlike (list_ascii_of_string name) /\ str_lower name = name).
  { unfold COLUMN_NAMES in H.
    repeat (destruct H as [<-|H];
            [split; [reflexivity | split; [split; [discriminate | repeat constructor] | reflexivity]]|]).
    destruct H. }
  destruct C as [C [W L]]. split.
  - now apply re_search_word.
  - intros mt Hm. unfold re_search in Hm. rewrite C in Hm.
    apply search_word_text in Hm. unfold group0, str_lower.
    rewrite list_ascii_of_string_of_list_ascii, Hm. exact L.
Qed.

(** ** What a group can capture *)

Lemma all_ascii_complete x : In x all_ascii.
Proof.
  unfold all_ascii. rewrite <- (ascii_nat_embedding x). apply in_map.
  apply in_seq. pose proof (nat_ascii_bounded x). lia.
Qed.

Lemma reaches_refl st : reaches st st [].
Proof. split; reflexivity. Qed.

Lemma reaches_trans a b c w1 w2 :
  reaches a b w1 -> reaches b c w2 -> reaches a c (w1 ++ w2).
Proof.
  intros [R1 S1] [R2 S2]. split.
  - rewrite R1, R2. now rewrite app_assoc.
  - rewrite S2, S1, rev_app_distr. now rewrite app_assoc.
Qed.

Lemma reaches_advance_1 st x xs : rest st = x :: xs -> reaches st (advance 1 st) [x].
Proof. intros E. unfold advance. split; cbn [rest seen]; rewrite E; reflexivity. Qed.

Lemma reaches_advance n st : reaches st (advance n st) (firstn n (rest st)).
Proof. split; simpl; [symmetry; apply firstn_skipn | reflexivity]. Qed.

Section Tracking.

Variable p : ascii -> bool.
Variable n : nat.

Local Abbreviation tracked := (tracked_run p n).

Lemma star_loop_tracked a :
  (forall k st res, caps_ok p n (caps st) -> run a k st = Some res -> tracked a k st res) ->
  forall fuel k st res,
    caps_ok p n (caps st) ->
    star_loop (run a) k fuel st = Some res -> tracked (Star a) k st res.
Proof.
  intros Ha. induction fuel as [|fuel IH]; intros k st res C H; simpl in H.
  - exists st, []. repeat split; try assumption; try reflexivity.
  - destruct (run a _ st) as [r|] eqn:E.
    + injection H as <-. apply Ha in E; [|exact C].
      destruct E as [st1 [w1 [R1 [P1 [C1 E1]]]]].
      destruct (Nat.ltb _ _); [|discriminate].
      apply IH in E1; [|exact C1]. destruct E1 as [st2 [w2 [R2 [P2 [C2 E2]]]]].
      exists st2, (w1 ++ w2). split; [eapply reaches_trans; eassumption|].
      split; [|split; assumption].
      cbn [only_chars] in *. intros O. rewrite forallb_app, P1, P2 by exact O.
      reflexivity.
    + exists st, []. repeat split; try assumption; try reflexivity.
Qed.

Lemma run_tracked r :
  group_only p n r = true ->
  forall k st res, caps_ok p n (caps st) -> run r k st = Some res -> tracked r k st res.
Proof.
  induction r as [|c|neg items| |a IHa b IHb|a IHa|a IHa|i a IHa|i];
    intros G k st res C H; cbn [run] in H; cbn [group_only] in G.
  - exists st, []. repeat split; try assumption; try reflexivity.
  - destruct (rest st) as [|x xs] eqn:E; [discriminate|].
    destruct (ci_eqb x c) eqn:M; [|discriminate].
    exists (advance 1 st), [x]. split; [now apply (reaches_advance_1 st x xs)|].
    split; [|split; assumption].
    cbn [only_chars]. intros O. rewrite forallb_forall in O.
    specialize (O x (all_ascii_complete x)). rewrite M in O. cbn [implb] in O.
    cbn [forallb]. now rewrite O.
  - destruct (rest st) as [|x xs] eqn:E; [discriminate|].
    destruct (cls_matches neg items x) eqn:M; [|discriminate].
    exists (advance 1 st), [x]. split; [now apply (reaches_advance_1 st x xs)|].
    split; [|split; assumption].
    cbn [only_chars]. intros O. rewrite forallb_forall in O.
    specialize (O x (all_ascii_complete x)). rewrite M in O. cbn [implb] in O.
    cbn [forallb]. now rewrite O.
  - destruct (at_boundary st); [|discriminate].
    exists st, []. repeat split; try assumption; try reflexivity.
  - apply andb_true_iff in G. destruct G as [Ga Gb].
    apply (IHa Ga) in H; [|exact C]. destruct H as [st1 [w1 [R1 [P1 [C1 H]]]]].
    apply (IHb Gb) in H; [|exact C1]. destruct H as [st2 [w2 [R2 [P2 [C2 H]]]]].
    exists st2, (w1 ++ w2). split; [eapply reaches_trans; eassumption|].
    split; [|split; assumption].
    cbn [only_chars]. intros O. apply andb_true_iff in O. destruct O as [Oa Ob].
    now rewrite forallb_app, P1, P2.
  - destruct (run a k st) as [r|] eqn:E.
    + injection H as <-. apply (IHa G) in E; [|exact C]. exact E.
    + exists st, []. repeat split; try assumption; try reflexivity.
  - eapply star_loop_tracked; [|exact C|exact H]. intros k' st' res'. now apply IHa.
  - apply andb_true_iff in G. destruct G as [Ga Gi].
    apply (IHa Ga) in H; [|exact C]. destruct H as [st1 [w1 [R1 [P1 [C1 H]]]]].
    eexists; exists w1. split; [|split; [exact P1|split; [|exact H]]].
    + destruct R1 as [X Y]. split; [exact X | exact Y].
    + cbn [caps]. intros w Hw. cbn [lookup_cap] in Hw.
      destruct (Nat.eqb i n) eqn:En.
      * injection Hw as <-. rewrite (consumed_reaches _ _ _ R1).
        apply P1. cbn [negb orb] in Gi. exact Gi.
      * now apply C1.
  - destruct (lookup_cap i (caps st)) as [w|]; [|discriminate].
    destruct (ci_prefix w (rest st)); [|discriminate].
    eexists; eexists. split; [apply reaches_advance|].
    split; [discriminate|]. split; [exact C | exact H].
Qed.

Lemma search_from_tracked r : group_only p n r = true ->
  forall ahead before mt,
    search_from r before ahead = Some mt -> caps_ok p n (m_caps mt).
Proof.
  intros G.
  assert (Start : forall before ahead st',
    run r Some (MState before ahead []) = Some st' -> caps_ok p n (caps st')).
  { intros before ahead st' E. apply (run_tracked r G) in E.
    - destruct E as [st1 [w [_ [_ [C E]]]]]. now injection E as <-.
    - intros w Hw. discriminate. }
  induction ahead as [|c ahead IH]; intros before mt H; cbn [search_from] in H.
  - destruct (run r Some _) as [st'|] eqn:E; [|discriminate].
    injection H as <-. now apply Start in E.
  - destruct (run r Some _) as [st'|] eqn:E.
    + injection H as <-. now apply Start in E.
    + now apply IH in H.
Qed.

End Tracking.

(** Each table regex but the first compiles to an expression whose group 2
    passes only over token characters. *)
Lemma tables_checked :
  forallb (fun pat =>
             match re_compile (table_regex pat) with
             | Some r => group_only token_char 2 r
             | None => true
             end) (tl PHONE_TABLES) = true.
Proof. vm_compute. reflexivity. Qed.

Lemma tables_checked_at pat r :
  In pat (tl PHONE_TABLES) ->
  re_compile (table_regex pat) = Some r -> group_only token_char 2 r = true.
Proof.
  intros H E. pose proof tables_checked as C.
  rewrite forallb_forall in C. specialize (C pat H). cbv beta in C.
  rewrite E in C. exact C.
Qed.

Lemma group2_tracked r before ahead mt token :
  group_only token_char 2 r = true ->
  search_from r before ahead = Some mt ->
  group 2 mt = Some token ->
  forallb token_char (list_ascii_of_string token) = true.
Proof.
  intros G Hs Hg.
  apply (search_from_tracked token_char 2 r G) in Hs.
  unfold group in Hg.
  destruct (lookup_cap 2 (m_caps mt)) as [w|] eqn:E; [|discriminate Hg].
  injection Hg as <-. rewrite list_ascii_of_string_of_list_ascii. now apply Hs.
Qed.

Lemma re_search_compiled pattern text mt :
  re_search pattern text = Some mt ->
  exists r, re_compile pattern = Some r
            /\ search_from r [] (list_ascii_of_string text) = Some mt.
Proof.
  unfold re_search. destruct (re_compile pattern) as [r|]; [|discriminate].
  intros H. now exists r.
Qed.

(** For each entry of [PHONE_TABLES] but the first, the token that the
    table regex extracts holds no white space, comma, backtick or double
    quote. *)
Lemma table_token_has_no_delimiter table_pattern text mt token :
  In table_pattern (tl PHONE_TABLES) ->
  re_search (table_regex table_pattern) text = Some mt ->
  group 2 mt = Some token ->
  forallb token_char (list_ascii_of_string token) = true.
Proof.
  intros Hin Hs Hg. apply re_search_compiled in Hs. destruct Hs as [r [Cr Hs]].
  exact (group2_tracked r _ _ mt token (tables_checked_at _ _ Hin Cr) Hs Hg).
Qed.

(** The first entry does not pass the test. *)
Lemma first_table_regex_passes_tab :
  option_map (group_only token_char 2) (re_compile (table_regex "\to_contact?\b"))
  = Some false.
Proof. vm_compute. reflexivity. Qed.

Lemma table_loop_cons pat patterns q :
  table_loop (pat :: patterns) q
  = match re_search (table_regex pat) q with
    | Some table_match =>
        Some ("SELECT * from "
              ++ match group 2 table_match with Some t => t | None => "None" end)%string
    | None => table_loop patterns q
    end.
Proof. reflexivity. Qed.

(** The result of the loop over the entries after the first is
    [SELECT * from] and a token without white space, comma, backtick or
    double quote. *)
Lemma table_loop_token query_text : forall patterns result,
  (forall pat, In pat patterns -> In pat (tl PHONE_TABLES)) ->
  table_loop patterns query_text = Some result ->
  exists token,
    result = ("SELECT * from " ++ token)%string
    /\ forallb token_char (list_ascii_of_string token) = true.
Proof.
  induction patterns as [|pat patterns IH]; intros result Hin H; [discriminate H|].
  rewrite table_loop_cons in H.
  destruct (re_search (table_regex pat) query_text) as [mt|] eqn:E.
  - injection H as <-. destruct (group 2 mt) as [token|] eqn:G.
    + exists token. split; [reflexivity|].
      eapply table_token_has_no_delimiter; [|exact E|exact G].
      apply Hin. now left.
    + exists "None". split; reflexivity.
  - apply IH; [|exact H]. intros q Hq. apply Hin. now right.
Qed.

(** ** The classifier: the claims *)



(** C2. In a text with the whole word [select], the column patterns are
    tried in list order against the whole text: the first pattern of the
    list that matches anywhere decides, and the result is the text it
    matched, a piece of the query in its original case. *)
Theorem column_patterns_first_in_list_wins :
  (forall query_text before pattern after mt,
      has_word "select" query_text ->
      PHONE_PATTERNS = before ++ pattern :: after ->
      (forall p, In p before -> re_search p query_text = None) ->
      re_search pattern query_text = Some mt ->
      find_phone_pattern_in_query (PStr query_text) = Ok (Some (group0 mt))
      /\ occurs_in (group0 mt) query_text)
  /\ find_phone_pattern_in_query (PStr "SELECT phone FROM users")
     = Ok (Some "phone")
  /\ find_phone_pattern_in_query (PStr "select to_contact_orig from x")
     = Ok (Some "to_contact_orig").
Proof.
  split; [|split; vm_compute; reflexivity].
  intros query_text before pattern after mt Hs Hl Hb Hp. split.
  - rewrite find_str_unfold. unfold find_in_text.
    apply select_search in Hs.
    destruct (re_search "\bselect\b" (str_lower query_text)); [|congruence].
    rewrite Hl, (column_loop_first _ _ _ _ _ Hb Hp). reflexivity.
  - apply re_search_slice in Hp. destruct Hp as [pre [post [A _]]].
    now exists pre, post.
Qed.

(** [Phone] is reported although [mobile] comes first in the text: [phone]
    comes first in the list. *)
Lemma column_patterns_first_in_list_wins_witness :
  let q := "select mobile, Phone from t" in
  has_word "select" q
  /\ re_search "\bmobile\b" q <> None
  /\ find_phone_pattern_in_query (PStr q) = Ok (Some "Phone")
  /\ occurs_in "Phone" q.
Proof.
  intros q.
  assert (Hs : has_word "select" q) by (exists "", "select", " mobile, Phone from t"; repeat split).
  split; [exact Hs|]. split; [vm_compute; discriminate|].
  destruct (re_search "\bphone\b" q) as [mt|] eqn:E; [|vm_compute in E; discriminate].
  assert (G : group0 mt = "Phone") by (vm_compute in E; injection E as <-; reflexivity).
  rewrite <- G.
  apply (proj1 column_patterns_first_in_list_wins q
           ["\bto_contact(?:_\w+)?\b"] "\bphone\b" (tl (tl PHONE_PATTERNS)) mt Hs).
  - reflexivity.
  - intros p [<-|[]]. vm_compute. reflexivity.
  - exact E.
Defined.

(** C3, at the text [select * from x<TAB>o_contact]. The first entry of
    [PHONE_TABLES] is written [\to_contact?\b], which the regex language
    reads as a tab followed by [o_contac], an optional [t] and a boundary;
    every other entry starts with [\b]. The table regex built from it
    therefore matches across the tab after [x], and the result holds an
    extracted text with white space inside, which is no token. With the
    entry read as the others are, nothing after [from] names a table of the
    list and the result would be absent. *)
Theorem first_table_pattern_matches_across_tab :
  let q := ("select * from x" ++ TAB ++ "o_contact")%string in
  has_word "select" q
  /\ column_loop PHONE_PATTERNS q = None
  /\ option_map (group 2) (re_search (table_regex "\to_contact?\b") q)
     = Some (Some ("x" ++ TAB ++ "o_contact")%string)
  /\ table_loop (tl PHONE_TABLES) q = None
  /\ existsb is_space (list_ascii_of_string ("x" ++ TAB ++ "o_contact")) = true
  /\ find_phone_pattern_in_query (PStr q)
     = Ok (Some ("SELECT * from x" ++ TAB ++ "o_contact")%string).
Proof.
  intros q. split.
  - exists "", "select", (" * from x" ++ TAB ++ "o_contact")%string. repeat split.
  - repeat split; vm_compute; reflexivity.
Qed.

(** X2. In a text with the whole word [select] where no column pattern matches
    and the first entry of [PHONE_TABLES] finds nothing, the result is
    absent, or [SELECT * from] and a token without white space, comma,
    backtick or double quote. *)
Lemma table_fallback_gives_token query_text :
  has_word "select" query_text ->
  column_loop PHONE_PATTERNS query_text = None ->
  re_search (table_regex "\to_contact?\b") query_text = None ->
  find_phone_pattern_in_query (PStr query_text) = Ok None
  \/ exists token,
       find_phone_pattern_in_query (PStr query_text)
       = Ok (Some ("SELECT * from " ++ token)%string)
       /\ forallb token_char (list_ascii_of_string token) = true.
Proof.
  intros Hs Hc Ht. rewrite find_str_unfold. unfold find_in_text.
  destruct (re_search "\bselect\b" (str_lower query_text)); [|now left].
  rewrite Hc.
  destruct (re_search "select\s+\*" (str_lower query_text)); [|now left].
  change PHONE_TABLES with ("\to_contact?\b" :: tl PHONE_TABLES).
  rewrite table_loop_cons, Ht.
  destruct (table_loop (tl PHONE_TABLES) query_text) as [result|] eqn:E; [|now left].
  right. apply table_loop_token in E; [|tauto].
  destruct E as [token [-> F]]. now exists token.
Qed.

(** ** Dictionaries *)

Lemma key_eqb_eq a b : key_eqb a b = true <-> a = b.
Proof.
  destruct a as [x|], b as [y|]; simpl; try (split; [discriminate|congruence]).
  - rewrite String.eqb_eq. split; congruence.
  - split; reflexivity.
Qed.

Lemma key_eqb_refl a : key_eqb a a = true.
Proof. now apply key_eqb_eq. Qed.

Lemma dict_get_set k v d k4 :
  dict_get (dict_set k v d) k4 = if key_eqb k k4 then Some v else dict_get d k4.
Proof.
  induction d as [|[k0 v0] d IH]; simpl.
  - reflexivity.
  - destruct (key_eqb k0 k) eqn:E; simpl.
    + apply key_eqb_eq in E. rewrite E. destruct (key_eqb k k4); reflexivity.
    + destruct (key_eqb k0 k4) eqn:E4; [|exact IH].
      apply key_eqb_eq in E4. rewrite E4 in E.
      destruct (key_eqb k k4) eqn:X; [|reflexivity].
      apply key_eqb_eq in X. rewrite X, key_eqb_refl in E. discriminate.
Qed.

Lemma existsb_key_eqb k l : existsb (key_eqb k) l = true <-> In k l.
Proof.
  rewrite existsb_exists. split.
  - intros [x [Hx E]]. apply key_eqb_eq in E. now subst.
  - intros H. exists k. split; [exact H | apply key_eqb_refl].
Qed.

Lemma dict_set_keys k v d :
  forall x, In x (dict_keys (dict_set k v d)) <-> x = k \/ In x (dict_keys d).
Proof.
  intros x. induction d as [|[k0 v0] d IH]; simpl.
  - split; [intros [<-|[]]; now left | intros [->|[]]; now left].
  - destruct (key_eqb k0 k) eqn:E; simpl.
    + apply key_eqb_eq in E. subst k0. intuition congruence.
    + unfold dict_keys in IH. rewrite IH. intuition congruence.
Qed.

(** The header dictionary maps every field name to itself. *)
Lemma header_dict_get : forall (keys : list pykey) (d : pydict),
  (forall k, In k (dict_keys d) -> dict_get d k = Some (key_cell k)) ->
  let d' := fold_left (fun d kv => dict_set (fst kv) (snd kv) d)
              (combine keys (map key_cell keys)) d in
  forall k, In k (dict_keys d') <-> In k keys \/ In k (dict_keys d).
Proof.
  induction keys as [|a keys IH]; intros d Hd; simpl.
  - intros k. tauto.
  - intros k. rewrite IH.
    + rewrite dict_set_keys. intuition congruence.
    + intros k0 Hk. rewrite dict_get_set. destruct (key_eqb a k0) eqn:E.
      * apply key_eqb_eq in E. now subst.
      * apply Hd. apply dict_set_keys in Hk. destruct Hk as [->|Hk]; [|exact Hk].
        now rewrite key_eqb_refl in E.
Qed.

Lemma header_dict_values : forall (keys : list pykey) (d : pydict),
  (forall k v, dict_get d k = Some v -> v = key_cell k) ->
  let d' := fold_left (fun d kv => dict_set (fst kv) (snd kv) d)
              (combine keys (map key_cell keys)) d in
  forall k v, dict_get d' k = Some v -> v = key_cell k.
Proof.
  induction keys as [|a keys IH]; intros d Hd; simpl.
  - exact Hd.
  - apply IH. intros k v. rewrite dict_get_set. destruct (key_eqb a k) eqn:E.
    + apply key_eqb_eq in E. subst. congruence.
    + apply Hd.
Qed.

Lemma dict_get_in_keys d k : In k (dict_keys d) -> exists v, dict_get d k = Some v.
Proof.
  induction d as [|[k0 v0] d IH]; simpl; [intros []|].
  intros [->|H].
  - rewrite key_eqb_refl. now exists v0.
  - destruct (key_eqb k0 k); [now exists v0 | now apply IH].
Qed.

(** [writeheader] writes the field names themselves and never fails. *)
Lemma writeheader_ok fieldnames :
  writeheader fieldnames = Ok (map key_cell fieldnames).
Proof.
  unfold writeheader, dict_to_list, dict_of_zip.
  pose proof (header_dict_get fieldnames []) as K.
  pose proof (header_dict_values fieldnames []) as V.
  simpl in K, V.
  specialize (K (fun k (H : False) => match H with end)).
  specialize (V (fun k v H => ltac:(discriminate))).
  set (d := fold_left _ _ _) in *.
  replace (forallb _ (dict_keys d)) with true.
  - f_equal. apply map_ext_in. intros k Hk. unfold dict_get_default.
    assert (Hin : In k (dict_keys d)) by (apply K; now left).
    apply dict_get_in_keys in Hin. destruct Hin as [v Hv]. rewrite Hv.
    now apply V in Hv.
  - symmetry. apply forallb_forall. intros k Hk. apply existsb_key_eqb.
    apply K in Hk. tauto.
Qed.

Lemma dict_to_list_fits fieldnames rowdict :
  fits fieldnames rowdict ->
  dict_to_list fieldnames rowdict = Ok (row_cells fieldnames rowdict).
Proof.
  intros F. unfold dict_to_list.
  replace (forallb _ _) with true; [reflexivity|].
  symmetry. apply forallb_forall. intros k Hk. apply existsb_key_eqb. now apply F.
Qed.



Lemma writerows_all fieldnames rows :
  Forall (fits fieldnames) rows ->
  writerows fieldnames rows = (map (fun r => Line (row_cells fieldnames r)) rows, None).
Proof.
  induction 1 as [|r rows F _ IH]; simpl; [reflexivity|].
  now rewrite (dict_to_list_fits _ _ F), IH.
Qed.

(** ** The keys of a row *)










(** ** The loops of the consolidator *)

Section ConsolidatorFacts.

Variable json_loads : string -> result pyval.

Local Abbreviation process := (process_csv_file json_loads).
Local Abbreviation rows := (rows_loop json_loads).

(** *** The row loop *)

Lemma rows_loop_acc fieldnames : forall records fails acc,
  rows fieldnames records fails acc
  = (acc ++ fst (rows fieldnames records fails []),
     snd (rows fieldnames records fails [])).
Proof.
  induction records as [|r records IH]; intros fails acc.
  - simpl. now rewrite app_nil_r.
  - cbn [rows_loop]. destruct r as [|x r]; [apply IH|].
    destruct (row_pattern json_loads (reader_row fieldnames (x :: r))) as [[p|]|e].
    + destruct (String.eqb p ""); [apply IH|].
      rewrite IH. rewrite (IH fails ([] ++ _)). simpl. now rewrite <- app_assoc.
    + apply IH.
    + destruct (inner_handler e); [apply IH|]. simpl. now rewrite app_nil_r.
Qed.

(** Whether the read fails at the end does not change the matches. *)
Lemma rows_loop_fails fieldnames : forall records acc,
  fst (rows fieldnames records true acc) = fst (rows fieldnames records false acc).
Proof.
  induction records as [|r records IH]; intros acc; [reflexivity|].
  cbn [rows_loop]. destruct r as [|x r]; [apply IH|].
  destruct (row_pattern json_loads (reader_row fieldnames (x :: r))) as [[p|]|e]; try apply IH.
  - destruct (String.eqb p ""); apply IH.
  - destruct (inner_handler e); [apply IH | reflexivity].
Qed.

(** A row whose exception the inner handler catches is passed over. *)
Lemma rows_loop_skip fieldnames row post fails : forall pre acc,
  row <> [] ->
  (row_pattern json_loads (reader_row fieldnames row) = Ok None
   \/ exists e, row_pattern json_loads (reader_row fieldnames row) = Raise e
                /\ inner_handler e = true) ->
  rows fieldnames (pre ++ row :: post) fails acc
  = rows fieldnames (pre ++ post) fails acc.
Proof.
  intros pre acc Hne H. revert acc.
  induction pre as [|r pre IH]; intros acc.
  - simpl app. cbn [rows_loop]. destruct row as [|x row]; [now elim Hne|].
    destruct H as [->|[e [-> ->]]]; reflexivity.
  - simpl app. cbn [rows_loop]. destruct r as [|x r]; [apply IH|].
    destruct (row_pattern json_loads (reader_row fieldnames (x :: r))) as [[p|]|e]; try apply IH.
    + destruct (String.eqb p ""); apply IH.
    + destruct (inner_handler e); [apply IH | reflexivity].
Qed.

(** A row whose exception the inner handler does not catch ends the loop:
    the matches are those of the rows before it. *)
Lemma rows_loop_abort fieldnames row post fails e : forall pre acc,
  row <> [] ->
  row_pattern json_loads (reader_row fieldnames row) = Raise e ->
  inner_handler e = false ->
  fst (rows fieldnames (pre ++ row :: post) fails acc)
  = fst (rows fieldnames pre false acc).
Proof.
  intros pre acc Hne H Hh. revert acc.
  induction pre as [|r pre IH]; intros acc.
  - simpl app. cbn [rows_loop]. destruct row as [|x row]; [now elim Hne|].
    now rewrite H, Hh.
  - simpl app. cbn [rows_loop]. destruct r as [|x r]; [apply IH|].
    destruct (row_pattern json_loads (reader_row fieldnames (x :: r))) as [[p|]|e']; try apply IH.
    + destruct (String.eqb p ""); apply IH.
    + destruct (inner_handler e'); [apply IH | reflexivity].
Qed.

(** Every match kept has a non-empty pattern, the one found in its row. *)
Lemma rows_loop_patterns fieldnames : forall records fails acc,
  Forall (fun rp => snd rp <> "" /\ row_pattern json_loads (fst rp) = Ok (Some (snd rp))) acc ->
  Forall (fun rp => snd rp <> "" /\ row_pattern json_loads (fst rp) = Ok (Some (snd rp)))
    (fst (rows fieldnames records fails acc)).
Proof.
  induction records as [|r records IH]; intros fails acc Hacc; [exact Hacc|].
  cbn [rows_loop]. destruct r as [|x r]; [now apply IH|].
  destruct (row_pattern json_loads (reader_row fieldnames (x :: r))) as [[p|]|e] eqn:E; try (now apply IH).
  - destruct (String.eqb p "") eqn:Ep; [now apply IH|].
    apply IH. apply Forall_app. split; [exact Hacc|].
    constructor; [|constructor]. simpl. split; [|exact E].
    intros ->. discriminate.
  - destruct (inner_handler e); [now apply IH | exact Hacc].
Qed.

Lemma process_patterns f :
  Forall (fun rp => snd rp <> "" /\ row_pattern json_loads (fst rp) = Ok (Some (snd rp)))
    (process f).
Proof.
  unfold process_csv_file, process_csv_file_reported.
  destruct f as [|[|header records] fails]; try constructor.
  apply rows_loop_patterns. constructor.
Qed.

Lemma process_missing : process Missing = [].
Proof. reflexivity. Qed.

(** *** The file loop *)

Lemma files_loop_rows fs : forall files all fieldnames,
  fst (files_loop json_loads fs files all fieldnames)
  = all ++ map output_row (flat_map (fun csv_file => process (fs csv_file)) files).
Proof.
  induction files as [|f files IH]; intros all fieldnames; simpl.
  - now rewrite app_nil_r.
  - destruct (fs f) as [|records fails] eqn:E; simpl.
    + apply IH.
    + destruct (process (Present records fails)) as [|[row0 p0] more] eqn:P.
      * apply IH.
      * rewrite IH, map_app, app_assoc. reflexivity.
Qed.

(** Once set, the field names are never changed. *)
Lemma files_loop_schema_kept fs fn : forall files all,
  snd (files_loop json_loads fs files all (Some fn)) = Some fn.
Proof.
  induction files as [|f files IH]; intros all; simpl; [reflexivity|].
  destruct (negb (file_exists (fs f))); [apply IH|].
  destruct (process (fs f)) as [|[row0 p0] more]; apply IH.
Qed.

(** Files without a match leave both variables as they are. *)
Lemma files_loop_no_match fs : forall files all fieldnames,
  (forall g, In g files -> process (fs g) = []) ->
  files_loop json_loads fs files all fieldnames = (all, fieldnames).
Proof.
  induction files as [|f files IH]; intros all fieldnames H; simpl; [reflexivity|].
  rewrite (H f) by now left.
  destruct (negb (file_exists (fs f))); apply IH; intros g Hg; apply H; now right.
Qed.

(** The field names come from the first matching row of the first file that
    has a match. *)
Lemma files_loop_schema_first fs f after row0 p more : forall before all,
  (forall g, In g before -> process (fs g) = []) ->
  process (fs f) = (row0, p) :: more ->
  snd (files_loop json_loads fs (before ++ f :: after) all None)
  = Some (dict_keys row0 ++ [Some MPP]).
Proof.
  induction before as [|b before IH]; intros all Hb Hf; simpl.
  - rewrite Hf. destruct (fs f) eqn:E; [discriminate Hf|]. simpl.
    apply files_loop_schema_kept.
  - rewrite (Hb b) by now left.
    destruct (negb (file_exists (fs b))); apply IH; try assumption;
      intros g Hg; apply Hb; now right.
Qed.

(** A missing file has no matches, so the test for existence can be left
    out of the loop. *)
Lemma files_loop_step fs f files all fieldnames :
  files_loop json_loads fs (f :: files) all fieldnames
  = match process (fs f) with
    | [] => files_loop json_loads fs files all fieldnames
    | (row0, _) :: _ =>
        files_loop json_loads fs files
          (all ++ map output_row (process (fs f)))
          (match fieldnames with
           | None => Some (dict_keys row0 ++ [Some MPP])
           | Some _ => fieldnames
           end)
    end.
Proof.
  cbn [files_loop]. destruct (fs f) as [|records fails]; reflexivity.
Qed.

(** The loops see a file only through its matches and its header. *)
Lemma files_loop_ext fs1 fs2 : forall files all fieldnames,
  (forall g, In g files -> process (fs1 g) = process (fs2 g)) ->
  files_loop json_loads fs1 files all fieldnames
  = files_loop json_loads fs2 files all fieldnames.
Proof.
  induction files as [|f files IH]; intros all fieldnames H; [reflexivity|].
  rewrite !files_loop_step, <- (H f) by now left.
  destruct (process (fs1 f)) as [|[row0 p0] more];
    apply IH; intros g Hg; apply H; now right.
Qed.

Lemma header_loop_ext fs1 fs2 : forall files fieldnames,
  (forall g, In g files -> header_of (fs1 g) = header_of (fs2 g)) ->
  header_loop fs1 files fieldnames = header_loop fs2 files fieldnames.
Proof.
  induction files as [|f files IH]; intros fieldnames H; simpl; [reflexivity|].
  assert (Hf := H f (or_introl eq_refl)).
  assert (IH' : header_loop fs1 files fieldnames = header_loop fs2 files fieldnames).
  { apply IH. intros g Hg. apply H. now right. }
  destruct (fs1 f) as [|[|h1 r1] b1], (fs2 f) as [|[|h2 r2] b2];
    simpl in Hf; try discriminate; try exact IH'.
  now injection Hf as ->.
Qed.

Lemma main_ext fs1 fs2 :
  (forall g, In g csv_files ->
     process (fs1 g) = process (fs2 g) /\ header_of (fs1 g) = header_of (fs2 g)) ->
  main json_loads fs1 = main json_loads fs2.
Proof.
  intros H. unfold main.
  rewrite (files_loop_ext fs1 fs2) by (intros g Hg; now apply H).
  destruct (files_loop json_loads fs2 csv_files [] None) as [all fieldnames].
  now rewrite (header_loop_ext fs1 fs2) by (intros g Hg; now apply H).
Qed.

End ConsolidatorFacts.

(** ** The consolidator: the claims *)

Section ConsolidatorClaims.

Variable json_loads : string -> result pyval.
Variable writer_format : list cell -> string.

Local Abbreviation process := (process_csv_file json_loads).
Local Abbreviation reported := (process_csv_file_reported json_loads).
Local Abbreviation pattern_of := (row_pattern json_loads).
Local Abbreviation run_main := (main json_loads).
Local Abbreviation loop := (files_loop json_loads).
Local Abbreviation kept := (kept_rows json_loads).

Lemma with_file_same fs f x : with_file fs f x f = x.
Proof. unfold with_file. now rewrite String.eqb_refl. Qed.

Lemma main_with_file fs f x :
  process (fs f) = process x -> header_of (fs f) = header_of x ->
  run_main fs = run_main (with_file fs f x).
Proof.
  intros P H. apply main_ext. intros g _. unfold with_file.
  destruct (String.eqb g f) eqn:E; [|now split].
  apply String.eqb_eq in E. subst g. now split.
Qed.

Lemma rows_loop_failure_reported fieldnames : forall records acc,
  snd (rows_loop json_loads fieldnames records true acc) <> None.
Proof.
  induction records as [|r records IH]; intros acc; [discriminate|].
  cbn [rows_loop]. destruct r as [|x r]; [apply IH|].
  destruct (pattern_of (reader_row fieldnames (x :: r))) as [[p|]|e]; try apply IH.
  - destruct (String.eqb p ""); apply IH.
  - destruct (inner_handler e); [apply IH | discriminate].
Qed.

(** C1, as amended. When the read of a file fails partway, the failure is
    caught and reported, the matches found in the rows read before it are
    kept, exactly as if the file had ended there, and the run goes on with
    the next file. *)
Theorem read_failure_keeps_earlier_matches fs f records :
  fs f = Present records true ->
  snd (reported (fs f)) <> None
  /\ process (fs f) = process (Present records false)
  /\ run_main fs = run_main (with_file fs f (Present records false)).
Proof.
  intros E.
  assert (P : process (fs f) = process (Present records false)).
  { rewrite E. unfold process_csv_file, process_csv_file_reported.
    destruct records as [|header records]; [reflexivity|].
    apply rows_loop_fails. }
  split; [|split; [exact P|]].
  - rewrite E. unfold process_csv_file_reported.
    destruct records as [|header records]; [discriminate|].
    apply rows_loop_failure_reported.
  - apply main_with_file; [exact P|]. rewrite E. now destruct records.
Qed.

(** C5. The field names are set once, by the first file, in list order,
    that has a match: they are the keys of its first matching row followed
    by [matched_phone_pattern]. The files before it, which have no match,
    and the files after it have no part in them, and they head the output. *)
Theorem schema_fixed_by_first_match fs before f after row0 p more :
  csv_files = before ++ f :: after ->
  (forall g, In g before -> process (fs g) = []) ->
  process (fs f) = (row0, p) :: more ->
  let schema := dict_keys row0 ++ [Some MPP] in
  snd (loop fs csv_files [] None) = Some schema
  /\ (forall files all, snd (loop fs files all (Some schema)) = Some schema)
  /\ (forall fs', (forall g, In g (before ++ [f]) -> fs' g = fs g) ->
        snd (loop fs' csv_files [] None) = Some schema)
  /\ exists items, written (run_main fs) = Line (map key_cell schema) :: items.
Proof.
  intros Hl Hb Hf schema.
  assert (S1 : snd (loop fs csv_files [] None) = Some schema).
  { rewrite Hl. eapply files_loop_schema_first; eassumption. }
  split; [exact S1|]. split; [intros; apply files_loop_schema_kept|]. split.
  - intros fs' Hfs. rewrite Hl. eapply files_loop_schema_first.
    + intros g Hg. rewrite Hfs by (apply in_or_app; now left). now apply Hb.
    + rewrite Hfs by (apply in_or_app; right; now left). exact Hf.
  - unfold main.
    pose proof (files_loop_rows json_loads fs csv_files [] None) as R.
    destruct (loop fs csv_files [] None) as [all fieldnames].
    cbn [fst snd] in S1, R. subst fieldnames.
    assert (Hne : all <> []).
    { rewrite R, Hl, flat_map_app. cbn [flat_map]. rewrite Hf.
      rewrite map_app, app_nil_l. intros Z. apply app_eq_nil in Z.
      destruct Z as [_ Z]. simpl in Z. discriminate. }
    destruct all as [|r0 all]; [now elim Hne|].
    unfold write_rows. rewrite writeheader_ok.
    destruct (writerows schema (r0 :: all)) as [items e]. now exists items.
Qed.


(** X13. The run reads nothing but the six files of [csv_files]: two file
    systems that agree on them, whatever else they hold, give the same
    output, item by item and byte by byte. *)
Theorem output_depends_on_listed_files_only fs1 fs2 :
  (forall g, In g csv_files -> fs1 g = fs2 g) ->
  run_main fs1 = run_main fs2
  /\ file_bytes writer_format (run_main fs1) = file_bytes writer_format (run_main fs2).
Proof.
  intros H.
  assert (M : run_main fs1 = run_main fs2).
  { apply main_ext. intros g Hg. now rewrite (H g Hg). }
  split; [exact M | now rewrite M].
Qed.




Lemma write_header_only_one fieldnames :
  raised (write_header_only fieldnames) = None
  /\ exists item, written (write_header_only fieldnames) = [item].
Proof.
  unfold write_header_only. destruct fieldnames as [[|k fn]|].
  - split; [reflexivity | eexists; reflexivity].
  - rewrite writeheader_ok. split; [reflexivity | eexists; reflexivity].
  - split; [reflexivity | eexists; reflexivity].
Qed.







Lemma header_loop_first fs f after header fieldnames : forall before,
  (forall g, In g before -> header_of (fs g) = None) ->
  header_of (fs f) = Some header ->
  header_loop fs (before ++ f :: after) fieldnames
  = Some (map Some header ++ [Some MPP]).
Proof.
  induction before as [|b before IH]; intros Hb Hf; simpl.
  - destruct (fs f) as [|[|h r] fl]; simpl in Hf; try discriminate.
    now injection Hf as ->.
  - assert (Hn := Hb b (or_introl eq_refl)).
    destruct (fs b) as [|[|h r] fl]; simpl in Hn; try discriminate;
      apply IH; try assumption; intros g Hg; apply Hb; now right.
Qed.

Lemma header_loop_none fs fieldnames : forall files,
  (forall g, In g files -> header_of (fs g) = None) ->
  header_loop fs files fieldnames = fieldnames.
Proof.
  induction files as [|f files IH]; intros H; simpl; [reflexivity|].
  assert (Hn := H f (or_introl eq_refl)).
  destruct (fs f) as [|[|h r] fl]; simpl in Hn; try discriminate;
    apply IH; intros g Hg; apply H; now right.
Qed.

Lemma missing_no_header f : file_exists f = false -> header_of f = None.
Proof. destruct f; [reflexivity | discriminate]. Qed.

Lemma write_header_only_some fieldnames :
  fieldnames <> [] ->
  write_header_only (Some fieldnames) = RunResult [Line (map key_cell fieldnames)] None.
Proof.
  intros Hne. destruct fieldnames as [|k fn]; [now elim Hne|].
  unfold write_header_only. now rewrite writeheader_ok.
Qed.

Lemma write_header_only_names header :
  write_header_only (Some (map Some header ++ [Some MPP]))
  = RunResult [Line (map CStr header ++ [CStr MPP])] None.
Proof.
  rewrite write_header_only_some by (destruct header; discriminate).
  now rewrite map_app, map_map.
Qed.

(** C8. When no row of any file matches, no field names were fixed by the
    loop and the run ends normally with an output of one item, a header:
    the header record of the first file that exists, followed by
    [matched_phone_pattern], or, when none of the files exists, the default
    header text. *)
Theorem no_match_writes_header_only fs :
  kept fs = [] ->
  snd (loop fs csv_files [] None) = None
  /\ raised (run_main fs) = None
  /\ (exists item, written (run_main fs) = [item])
  /\ (forall before f after header,
        csv_files = before ++ f :: after ->
        (forall g, In g before -> file_exists (fs g) = false) ->
        header_of (fs f) = Some header ->
        written (run_main fs) = [Line (map CStr header ++ [CStr MPP])])
  /\ ((forall g, In g csv_files -> file_exists (fs g) = false) ->
        written (run_main fs) = [RawText default_header]).
Proof.
  intros K.
  assert (E : loop fs csv_files [] None = ([], None)).
  { apply files_loop_no_match. intros g Hg. unfold kept_rows in K.
    destruct (process (fs g)) as [|rp more] eqn:P; [reflexivity|].
    assert (In rp (flat_map (fun csv_file => process (fs csv_file)) csv_files)).
    { apply in_flat_map. exists g. split; [exact Hg|]. rewrite P. now left. }
    rewrite K in H. destruct H. }
  unfold main. rewrite E. cbn [fst snd].
  destruct (write_header_only_one (header_loop fs csv_files None)) as [W1 W2].
  split; [reflexivity|]. split; [exact W1|]. split; [exact W2|]. split.
  - intros before f after header Hl Hb Hf.
    rewrite Hl, (header_loop_first fs f after header None before), write_header_only_names.
    + reflexivity.
    + intros g Hg. apply missing_no_header. now apply Hb.
    + exact Hf.
  - intros H. rewrite header_loop_none; [reflexivity|].
    intros g Hg. apply missing_no_header. now apply H.
Qed.


End ConsolidatorClaims.

(** ** Matches are pieces of the text *)

Lemma in_text_reaches T st st' w : in_text T st -> reaches st st' w -> in_text T st'.
Proof.
  unfold in_text. intros V [R S]. rewrite S, rev_app_distr, rev_involutive.
  rewrite <- app_assoc, <- R. exact V.
Qed.

Lemma in_text_piece T st st' w :
  in_text T st -> reaches st st' w -> exists a b, T = a ++ w ++ b.
Proof.
  unfold in_text. intros V [R S]. exists (rev (seen st)), (rest st').
  now rewrite <- R.
Qed.

Section Following.

Variable T : list ascii.
Variable n : nat.

Local Abbreviation followed := (followed_run T n).

Lemma followed_here r k st res :
  min_len r = 0 -> sets_group n r = false ->
  in_text T st -> caps_pieces T (caps st) -> k st = Some res ->
  followed r k st res.
Proof.
  intros M S V C H. exists st, []. split; [apply reaches_refl|].
  split; [simpl; lia|]. split; [exact V|]. split; [exact C|]. split; [|exact H].
  intros [D|D]; [exact D | congruence].
Qed.

Lemma followed_step r k st res x xs :
  min_len r = 1 -> sets_group n r = false -> rest st = x :: xs ->
  in_text T st -> caps_pieces T (caps st) -> k (advance 1 st) = Some res ->
  followed r k st res.
Proof.
  intros M S E V C H. exists (advance 1 st), [x].
  pose proof (reaches_advance_1 st x xs E) as R.
  split; [exact R|]. split; [simpl; lia|].
  split; [eapply in_text_reaches; eassumption|]. split; [exact C|].
  split; [|exact H]. intros [D|D]; [exact D | congruence].
Qed.

Lemma star_loop_followed a :
  (forall k st res, in_text T st -> caps_pieces T (caps st) ->
     run a k st = Some res -> followed a k st res) ->
  forall fuel k st res,
    in_text T st -> caps_pieces T (caps st) ->
    star_loop (run a) k fuel st = Some res -> followed (Star a) k st res.
Proof.
  intros Ha. induction fuel as [|fuel IH]; intros k st res V C H; simpl in H.
  - now apply followed_here.
  - destruct (run a _ st) as [r|] eqn:E.
    + injection H as <-. apply Ha in E; [|exact V|exact C].
      destruct E as [st1 [w1 [R1 [_ [V1 [C1 [D1 E1]]]]]]].
      destruct (Nat.ltb _ _); [|discriminate].
      apply IH in E1; [|exact V1|exact C1].
      destruct E1 as [st2 [w2 [R2 [_ [V2 [C2 [D2 E2]]]]]]].
      exists st2, (w1 ++ w2). split; [eapply reaches_trans; eassumption|].
      split; [simpl; lia|]. split; [exact V2|]. split; [exact C2|].
      split; [|exact E2].
      intros [D|D]; [|discriminate D]. apply D2. left. apply D1. now left.
    + now apply followed_here.
Qed.

Lemma run_followed r :
  forall k st res, in_text T st -> caps_pieces T (caps st) ->
    run r k st = Some res -> followed r k st res.
Proof.
  induction r as [|c|neg items| |a IHa b IHb|a IHa|a IHa|i a IHa|i];
    intros k st res V C H; cbn [run] in H.
  - now apply followed_here.
  - destruct (rest st) as [|x xs] eqn:E; [discriminate|].
    destruct (ci_eqb x c); [|discriminate]. now apply (followed_step _ _ _ _ x xs).
  - destruct (rest st) as [|x xs] eqn:E; [discriminate|].
    destruct (cls_matches neg items x); [|discriminate].
    now apply (followed_step _ _ _ _ x xs).
  - destruct (at_boundary st); [|discriminate]. now apply followed_here.
  - apply IHa in H; [|exact V|exact C].
    destruct H as [st1 [w1 [R1 [M1 [V1 [C1 [D1 H]]]]]]].
    apply IHb in H; [|exact V1|exact C1].
    destruct H as [st2 [w2 [R2 [M2 [V2 [C2 [D2 H]]]]]]].
    exists st2, (w1 ++ w2). split; [eapply reaches_trans; eassumption|].
    split; [cbn [min_len]; rewrite length_app; lia|].
    split; [exact V2|]. split; [exact C2|]. split; [|exact H].
    cbn [sets_group]. intros [D|D].
    + apply D2. left. apply D1. now left.
    + apply orb_true_iff in D. destruct D as [D|D].
      * apply D2. left. apply D1. now right.
      * apply D2. now right.
  - destruct (run a k st) as [r|] eqn:E.
    + injection H as <-. apply IHa in E; [|exact V|exact C].
      destruct E as [st1 [w1 [R1 [_ [V1 [C1 [D1 E1]]]]]]].
      exists st1, w1. split; [exact R1|]. split; [simpl; lia|].
      split; [exact V1|]. split; [exact C1|]. split; [|exact E1].
      intros [D|D]; [|discriminate D]. apply D1. now left.
    + now apply followed_here.
  - eapply star_loop_followed; [|exact V|exact C|exact H].
    intros k' st' res'. apply IHa.
  - apply IHa in H; [|exact V|exact C].
    destruct H as [st1 [w1 [R1 [M1 [V1 [C1 [D1 H]]]]]]].
    eexists; exists w1. split; [|split; [exact M1|split; [|split; [|split; [|exact H]]]]].
    + destruct R1 as [X Y]. split; [exact X | exact Y].
    + exact V1.
    + cbn [caps]. intros m w Hw. cbn [lookup_cap] in Hw.
      destruct (Nat.eqb i m).
      * injection Hw as <-. rewrite (consumed_reaches _ _ _ R1).
        exact (in_text_piece T st st1 w1 V R1).
      * eapply C1. exact Hw.
    + cbn [caps lookup_cap sets_group]. intros D.
      destruct (Nat.eqb i n) eqn:En; [discriminate|].
      apply D1. destruct D as [D|D]; [now left | right; exact D].
  - destruct (lookup_cap i (caps st)) as [w|]; [|discriminate].
    destruct (ci_prefix w (rest st)); [|discriminate].
    eexists; eexists. split; [apply reaches_advance|].
    split; [simpl; lia|].
    split; [eapply in_text_reaches; [exact V | apply reaches_advance]|].
    split; [exact C|]. split; [|exact H].
    intros [D|D]; [exact D | discriminate D].
Qed.

End Following.

(** What a search result holds: its text is at least [min_len r] long, its
    captures are pieces of the text searched, and a group that every match
    passes through is set. *)
Lemma search_from_followed r n : forall ahead before mt,
  search_from r before ahead = Some mt ->
  min_len r <= List.length (m_text mt)
  /\ caps_pieces (rev before ++ ahead) (m_caps mt)
  /\ (sets_group n r = true -> lookup_cap n (m_caps mt) <> None).
Proof.
  assert (Start : forall before ahead st',
    run r Some (MState before ahead []) = Some st' ->
    min_len r <= List.length (consumed (MState before ahead []) st')
    /\ caps_pieces (rev before ++ ahead) (caps st')
    /\ (sets_group n r = true -> lookup_cap n (caps st') <> None)).
  { intros before ahead st' E.
    apply (run_followed (rev before ++ ahead) n r) in E.
    - destruct E as [st1 [w [R [M [_ [C [D E]]]]]]]. injection E as <-.
      rewrite (consumed_reaches _ _ _ R). split; [exact M|]. split; [exact C|].
      intros S. apply D. now right.
    - reflexivity.
    - intros m w Hw. discriminate. }
  induction ahead as [|c ahead IH]; intros before mt H; cbn [search_from] in H.
  - destruct (run r Some _) as [st'|] eqn:E; [|discriminate].
    injection H as <-. now apply Start in E.
  - destruct (run r Some _) as [st'|] eqn:E.
    + injection H as <-. now apply Start in E.
    + apply IH in H. cbn [rev] in H. now rewrite <- app_assoc in H.
Qed.

(** ** The classifier: soundness and completeness *)

Lemma pieces_occurs_in (w : list ascii) (text : string) :
  (exists a b, list_ascii_of_string text = a ++ w ++ b) ->
  occurs_in (string_of_list_ascii w) text.
Proof.
  intros [a [b E]]. exists (string_of_list_ascii a), (string_of_list_ascii b).
  rewrite <- !string_of_app, <- E. symmetry. apply string_of_list_ascii_of_string.
Qed.

Lemma string_of_list_nonempty (w : list ascii) :
  1 <= List.length w -> string_of_list_ascii w <> "".
Proof. destruct w; simpl; [lia | discriminate]. Qed.

(** Every column pattern needs at least one character. *)
Lemma column_patterns_checked :
  forallb (fun pat =>
             match re_compile pat with
             | Some r => Nat.leb 1 (min_len r)
             | None => true
             end) PHONE_PATTERNS = true.
Proof. vm_compute. reflexivity. Qed.

(** Every table regex sets group 2 in each of its matches. *)
Lemma table_regexes_set_group :
  forallb (fun pat =>
             match re_compile (table_regex pat) with
             | Some r => sets_group 2 r
             | None => true
             end) PHONE_TABLES = true.
Proof. vm_compute. reflexivity. Qed.

Lemma column_match_nonempty pat text mt :
  In pat PHONE_PATTERNS -> re_search pat text = Some mt -> group0 mt <> "".
Proof.
  intros Hin Hs. pose proof column_patterns_checked as C.
  rewrite forallb_forall in C. specialize (C pat Hin). cbv beta in C.
  apply re_search_compiled in Hs. destruct Hs as [r [Cr Hs]]. rewrite Cr in C.
  apply Nat.leb_le in C.
  apply (search_from_followed r 0) in Hs. destruct Hs as [M _].
  apply string_of_list_nonempty. lia.
Qed.

Lemma table_match_token pat text mt :
  In pat PHONE_TABLES -> re_search (table_regex pat) text = Some mt ->
  exists token, group 2 mt = Some token /\ occurs_in token text.
Proof.
  intros Hin Hs. pose proof table_regexes_set_group as C.
  rewrite forallb_forall in C. specialize (C pat Hin). cbv beta in C.
  apply re_search_compiled in Hs. destruct Hs as [r [Cr Hs]]. rewrite Cr in C.
  apply (search_from_followed r 2) in Hs. destruct Hs as [_ [P S]].
  specialize (S C). unfold group.
  destruct (lookup_cap 2 (m_caps mt)) as [w|] eqn:E; [|congruence].
  exists (string_of_list_ascii w). split; [reflexivity|].
  apply pieces_occurs_in. apply (P 2 w E).
Qed.

Lemma column_loop_some query_text : forall patterns s,
  column_loop patterns query_text = Some s ->
  exists pat mt, In pat patterns /\ re_search pat query_text = Some mt
                 /\ s = group0 mt.
Proof.
  induction patterns as [|pat patterns IH]; intros s H; [discriminate H|].
  cbn [column_loop] in H.
  destruct (re_search pat query_text) as [mt|] eqn:E.
  - injection H as <-. exists pat, mt. split; [now left | now split].
  - apply IH in H. destruct H as [p [mt [A [B C]]]].
    exists p, mt. split; [now right | now split].
Qed.

Lemma table_loop_some query_text : forall patterns s,
  (forall pat, In pat patterns -> In pat PHONE_TABLES) ->
  table_loop patterns query_text = Some s ->
  exists token, s = ("SELECT * from " ++ token)%string /\ occurs_in token query_text.
Proof.
  induction patterns as [|pat patterns IH]; intros s Hin H; [discriminate H|].
  rewrite table_loop_cons in H.
  destruct (re_search (table_regex pat) query_text) as [mt|] eqn:E.
  - injection H as <-.
    destruct (table_match_token pat query_text mt (Hin pat (or_introl eq_refl)) E)
      as [token [G O]].
    rewrite G. now exists token.
  - apply IH; [|exact H]. intros q Hq. apply Hin. now right.
Qed.

Lemma find_in_text_sound query_text s :
  find_in_text query_text = Some s ->
  has_word "select" query_text
  /\ s <> ""
  /\ (occurs_in s query_text
      \/ exists token, s = ("SELECT * from " ++ token)%string
                       /\ occurs_in token query_text).
Proof.
  unfold find_in_text. intros H.
  destruct (re_search "\bselect\b" (str_lower query_text)) as [m0|] eqn:S;
    [|discriminate H].
  split; [apply select_search; congruence|].
  destruct (column_loop PHONE_PATTERNS query_text) as [matched|] eqn:C.
  - injection H as <-. apply column_loop_some in C.
    destruct C as [pat [mt [Hin [Hs ->]]]]. split.
    + eapply column_match_nonempty; eassumption.
    + left. apply re_search_slice in Hs. destruct Hs as [a [b [A _]]]. now exists a, b.
  - destruct (re_search "select\s+\*" (str_lower query_text)); [|discriminate H].
    apply table_loop_some in H; [|tauto].
    destruct H as [token [-> O]]. split; [discriminate|].
    right. now exists token.
Qed.

(** X4. On texts over the code points below U+0100, a result of the
    classifier is never empty and never made up: the value classified is a
    text with the whole word [select], and the result is a piece of that
    text, or [SELECT * from] followed by a piece of that text. *)
Theorem classifier_result_is_from_query (query_text : pyval) (s : string) :
  find_phone_pattern_in_query query_text = Ok (Some s) ->
  exists q,
    query_text = PStr q
    /\ has_word "select" q
    /\ s <> ""
    /\ (occurs_in s q
        \/ exists token, s = ("SELECT * from " ++ token)%string /\ occurs_in token q).
Proof.
  unfold find_phone_pattern_in_query. intros H.
  destruct (negb (truthy query_text)); [discriminate H|].
  destruct query_text as [| | | |q| |]; try discriminate H.
  injection H as H. exists q. split; [reflexivity|].
  now apply find_in_text_sound.
Qed.

(** The classifier never returns the empty string. *)
Lemma find_result_nonempty query_text s :
  find_phone_pattern_in_query query_text = Ok (Some s) -> s <> "".
Proof.
  unfold find_phone_pattern_in_query. intros H.
  destruct (negb (truthy query_text)); [discriminate H|].
  destruct query_text as [| | | |q| |]; try discriminate H.
  injection H as H. now apply find_in_text_sound in H.
Qed.

Lemma column_name_compiles name :
  In name COLUMN_NAMES ->
  re_compile ("\b" ++ name ++ "\b") = Some (word_re name)
  /\ wordlike (list_ascii_of_string name) /\ str_lower name = name.
Proof.
  intros H. unfold COLUMN_NAMES in H.
  repeat (destruct H as [<-|H];
          [split; [reflexivity
                  | split; [split; [discriminate | repeat constructor] | reflexivity]]|]).
  destruct H.
Qed.

(** X5. A text that has the whole word [select] and one of the column
    names as a whole word, in any case, is never left unclassified: the
    classifier returns a non-empty piece of the text, matched by one of the
    column patterns. *)
Theorem listed_column_is_always_flagged (q name : string) :
  has_word "select" q ->
  In name COLUMN_NAMES ->
  has_word name q ->
  exists s pat mt,
    find_phone_pattern_in_query (PStr q) = Ok (Some s)
    /\ In pat PHONE_PATTERNS /\ re_search pat q = Some mt /\ s = group0 mt
    /\ s <> "" /\ occurs_in s q.
Proof.
  intros Hs Hn Hw. rewrite find_str_unfold. unfold find_in_text.
  apply select_search in Hs.
  destruct (re_search "\bselect\b" (str_lower q)); [|congruence].
  destruct (column_name_compiles name Hn) as [C [W L]].
  destruct (column_loop PHONE_PATTERNS q) as [s|] eqn:E.
  - apply column_loop_some in E. destruct E as [pat [mt [Hin [Hm ->]]]].
    exists (group0 mt), pat, mt. repeat split; try assumption.
    + eapply column_match_nonempty; eassumption.
    + apply re_search_slice in Hm. destruct Hm as [a [b [A _]]]. now exists a, b.
  - exfalso. rewrite column_loop_none in E.
    apply (re_search_word _ _ q C W L) in Hw. apply Hw. apply E.
    rewrite phone_patterns_names. right. apply in_map_iff. now exists name.
Qed.

(** ** A column match is a whole identifier *)

(** An expression that ends with a boundary calls its continuation at a
    boundary. *)
Lemma run_at_boundary_only r : ends_at_boundary r = true ->
  forall k st, run r (at_boundary_only k) st = run r k st.
Proof.
  induction r as [|c|neg items| |a IHa b IHb|a IHa|a IHa|i a IHa|i];
    intros E k st; cbn [ends_at_boundary] in E; try discriminate E; cbn [run].
  - unfold at_boundary_only. now destruct (at_boundary st).
  - destruct b; try (apply run_local; intros st' _; now apply IHb).
    cbn [run]. rewrite (run_local a (fun st' => at_boundary_only k st')
                          (at_boundary_only k)) by reflexivity.
    rewrite (IHa E). now apply run_local.
Qed.

Lemma hd_word_forallb x w l : forallb is_word (x :: w) = true -> hd_word ((x :: w) ++ l) = true.
Proof. simpl. intros H. now apply andb_true_iff in H. Qed.

Lemma hd_word_rev_forallb w l :
  w <> [] -> forallb is_word w = true -> hd_word (rev w ++ l) = true.
Proof.
  intros Hne F. destruct (rev w) as [|y ys] eqn:R.
  - apply (f_equal (@rev ascii)) in R. rewrite rev_involutive in R. now elim Hne.
  - simpl. rewrite forallb_forall in F. apply F. apply in_rev. rewrite R. now left.
Qed.

(** A match of an identifier pattern, tried at one position. *)
Lemma run_identifier r st st' :
  starts_at_boundary r = true -> ends_at_boundary r = true ->
  only_chars is_word r = true -> group_only is_word 0 r = true ->
  1 <= min_len r -> caps st = [] ->
  run r Some st = Some st' ->
  exists w, reaches st st' w /\ w <> [] /\ forallb is_word w = true
            /\ hd_word (seen st) = false /\ hd_word (rest st') = false.
Proof.
  intros S E O G M C H.
  assert (B1 : at_boundary st = true).
  { destruct r as [| | | |a b| | | |]; try discriminate S.
    destruct a; try discriminate S. cbn [run] in H.
    destruct (at_boundary st); [reflexivity | discriminate H]. }
  assert (B2 : at_boundary st' = true).
  { rewrite <- (run_at_boundary_only r E) in H. apply run_forward in H.
    destruct H as [st1 [_ H]]. unfold at_boundary_only in H.
    destruct (at_boundary st1) eqn:B; [|discriminate H]. now injection H as <-. }
  pose proof (run_followed (rev (seen st) ++ rest st) 0 r Some st st' eq_refl) as F.
  destruct F as [st1 [w1 [R1 [L1 [_ [_ [_ K1]]]]]]];
    [rewrite C; intros n w Hw; discriminate Hw | exact H |].
  injection K1 as ->.
  pose proof (run_tracked is_word 0 r G Some st st') as T.
  destruct T as [st2 [w2 [R2 [P2 [_ K2]]]]];
    [rewrite C; intros w Hw; discriminate Hw | exact H |].
  injection K2 as ->.
  assert (W : w2 = w1).
  { rewrite <- (consumed_reaches _ _ _ R1). symmetry. now apply consumed_reaches. }
  subst w2. specialize (P2 O).
  assert (Hne : w1 <> []) by (intros Z; subst w1; simpl in L1; lia).
  exists w1. split; [exact R1|]. split; [exact Hne|]. split; [exact P2|].
  destruct R1 as [Rr Rs].
  unfold at_boundary, word_before, word_after in B1, B2.
  assert (A1 : hd_word (rest st) = true).
  { rewrite Rr. destruct w1 as [|x w1]; [now elim Hne|]. now apply hd_word_forallb. }
  assert (A2 : hd_word (seen st') = true).
  { rewrite Rs. now apply hd_word_rev_forallb. }
  rewrite A1 in B1. rewrite A2 in B2.
  split.
  - now destruct (hd_word (seen st)).
  - now destruct (hd_word (rest st')).
Qed.

(** A match of an identifier pattern, found by a search. *)
Lemma search_from_identifier r :
  starts_at_boundary r = true -> ends_at_boundary r = true ->
  only_chars is_word r = true -> group_only is_word 0 r = true ->
  1 <= min_len r ->
  forall ahead before mt,
    search_from r before ahead = Some mt ->
    exists pre post,
      ahead = pre ++ m_text mt ++ post
      /\ hd_word (rev pre ++ before) = false
      /\ hd_word post = false
      /\ forallb is_word (m_text mt) = true
      /\ m_text mt <> [].
Proof.
  intros S E O G M.
  assert (Start : forall before ahead st',
    run r Some (MState before ahead []) = Some st' ->
    exists post,
      ahead = consumed (MState before ahead []) st' ++ post
      /\ hd_word before = false /\ hd_word post = false
      /\ forallb is_word (consumed (MState before ahead []) st') = true
      /\ consumed (MState before ahead []) st' <> []).
  { intros before ahead st' H.
    destruct (run_identifier r (MState before ahead []) st' S E O G M eq_refl H)
      as [w [R [Hne [F [B1 B2]]]]].
    rewrite (consumed_reaches _ _ _ R). exists (rest st').
    destruct R as [Rr _]. cbn [rest seen] in *. now repeat split. }
  induction ahead as [|c ahead IH]; intros before mt H; cbn [search_from] in H.
  - destruct (run r Some _) as [st'|] eqn:R; [|discriminate H].
    injection H as <-. cbn [m_text].
    destruct (Start _ _ _ R) as [post [A [B1 [B2 [F Hne]]]]].
    exists [], post. now repeat split.
  - destruct (run r Some _) as [st'|] eqn:R.
    + injection H as <-. cbn [m_text].
      destruct (Start _ _ _ R) as [post [A [B1 [B2 [F Hne]]]]].
      exists [], post. now repeat split.
    + destruct (IH (c :: before) mt H) as [pre [post [A [B1 [B2 [F Hne]]]]]].
      exists (c :: pre), post. split; [simpl; now rewrite A|].
      split; [|now repeat split].
      simpl. now rewrite <- app_assoc.
Qed.

Lemma re_search_identifier pattern text mt :
  identifier_pattern pattern = true ->
  re_search pattern text = Some mt ->
  whole_identifier (group0 mt) text.
Proof.
  unfold identifier_pattern. intros I H.
  apply re_search_compiled in H. destruct H as [r [C H]]. rewrite C in I.
  rewrite !andb_true_iff in I. destruct I as [[[[S E] O] G] M].
  apply Nat.leb_le in M.
  destruct (search_from_identifier r S E O G M _ _ _ H)
    as [pre [post [A [B1 [B2 [F Hne]]]]]].
  exists (string_of_list_ascii pre), (string_of_list_ascii post).
  unfold group0, ends_with_word, starts_with_word.
  rewrite !list_ascii_of_string_of_list_ascii.
  split; [|split; [|split; [|split]]].
  - rewrite <- !string_of_app, <- A. symmetry. apply string_of_list_ascii_of_string.
  - now rewrite app_nil_r in B1.
  - exact B2.
  - exact F.
  - apply string_of_list_nonempty. destruct (m_text mt); [now elim Hne | simpl; lia].
Qed.

(** Every column pattern is a pattern for whole identifiers. *)
Lemma column_patterns_identifiers :
  forallb identifier_pattern PHONE_PATTERNS = true.
Proof. vm_compute. reflexivity. Qed.

Lemma column_loop_identifier text s : forall patterns,
  forallb identifier_pattern patterns = true ->
  column_loop patterns text = Some s -> whole_identifier s text.
Proof.
  induction patterns as [|pat patterns IH]; intros F H; [discriminate H|].
  cbn [forallb] in F. apply andb_true_iff in F. destruct F as [F1 F2].
  cbn [column_loop] in H. destruct (re_search pat text) as [mt|] eqn:R.
  - injection H as <-. now apply (re_search_identifier pat).
  - now apply IH.
Qed.

(** X12. A result of the classifier is a whole identifier of the query, a
    run of word characters with no word character beside it, matched by a
    column pattern, or, when no column pattern matches, a text built on
    [SELECT * from]. *)
Theorem result_is_identifier_or_select_star (q s : string) :
  find_phone_pattern_in_query (PStr q) = Ok (Some s) ->
  column_loop PHONE_PATTERNS q = Some s /\ whole_identifier s q
  \/ column_loop PHONE_PATTERNS q = None
     /\ exists token, s = ("SELECT * from " ++ token)%string.
Proof.
  rewrite find_str_unfold. intros H. injection H as H. unfold find_in_text in H.
  destruct (re_search "\bselect\b" (str_lower q)); [|discriminate H].
  destruct (column_loop PHONE_PATTERNS q) as [m|] eqn:C.
  - injection H as ->. left. split; [reflexivity|].
    exact (column_loop_identifier q s PHONE_PATTERNS column_patterns_identifiers C).
  - right. split; [reflexivity|].
    destruct (re_search "select\s+\*" (str_lower q)); [|discriminate H].
    clear C. revert H. generalize PHONE_TABLES.
    induction l as [|pat l IH]; intros H; [discriminate H|].
    rewrite table_loop_cons in H.
    destruct (re_search (table_regex pat) q) as [mt|].
    + injection H as <-. eexists. reflexivity.
    + now apply IH.
Qed.

(** ** Letter case does not change what is found *)

Lemma is_space_lower c : is_space (lower c) = is_space c.
Proof. destruct c as [[] [] [] [] [] [] [] []]; reflexivity. Qed.

Lemma is_digit_lower c : is_digit (lower c) = is_digit c.
Proof. destruct c as [[] [] [] [] [] [] [] []]; reflexivity. Qed.

Lemma ci_eqb_lower x c : ci_eqb (lower x) c = ci_eqb x c.
Proof. unfold ci_eqb. now rewrite lower_lower. Qed.

Lemma cls_matches_lower neg items x :
  cls_matches neg items (lower x) = cls_matches neg items x.
Proof.
  unfold cls_matches. f_equal. induction items as [|it items IH]; [reflexivity|].
  simpl. rewrite IH. f_equal. destruct it; simpl.
  - apply ci_eqb_lower.
  - apply is_word_lower.
  - apply is_space_lower.
  - apply is_digit_lower.
Qed.

Lemma at_boundary_lower st : at_boundary (lower_state st) = at_boundary st.
Proof.
  unfold at_boundary, word_before, word_after, lower_state. cbn [seen rest].
  now rewrite !hd_word_map_lower.
Qed.

Lemma advance_lower n st : advance n (lower_state st) = lower_state (advance n st).
Proof.
  unfold advance, lower_state. cbn [seen rest caps].
  now rewrite firstn_map, skipn_map, map_app, map_rev.
Qed.

Lemma consumed_lower st st' :
  consumed (lower_state st) (lower_state st') = map lower (consumed st st').
Proof.
  unfold consumed, lower_state. cbn [rest]. now rewrite !length_map, firstn_map.
Qed.

Lemma lookup_cap_lower n cs :
  lookup_cap n (lower_caps cs) = option_map (map lower) (lookup_cap n cs).
Proof.
  induction cs as [|[i w] cs IH]; [reflexivity|].
  simpl. destruct (Nat.eqb i n); [reflexivity | exact IH].
Qed.

Lemma ci_prefix_lower w : forall l,
  ci_prefix (map lower w) (map lower l) = ci_prefix w l.
Proof.
  induction w as [|a w IH]; intros l; [reflexivity|].
  destruct l as [|b l]; [reflexivity|]. simpl.
  rewrite IH. f_equal. unfold ci_eqb. now rewrite !lower_lower.
Qed.

Lemma star_loop_lower a :
  (forall k k' st,
      (forall st', k' (lower_state st') = option_map lower_state (k st')) ->
      run a k' (lower_state st) = option_map lower_state (run a k st)) ->
  forall fuel k k' st,
    (forall st', k' (lower_state st') = option_map lower_state (k st')) ->
    star_loop (run a) k' fuel (lower_state st)
    = option_map lower_state (star_loop (run a) k fuel st).
Proof.
  intros Ha. induction fuel as [|fuel IH]; intros k k' st H; simpl.
  - apply H.
  - rewrite (Ha (fun st1 =>
                   if Nat.ltb (List.length (rest st1)) (List.length (rest st))
                   then star_loop (run a) k fuel st1 else None)).
    + destruct (run a _ st); [reflexivity | apply H].
    + intros st'. cbn [lower_state rest]. rewrite !length_map.
      destruct (Nat.ltb _ _); [|reflexivity]. now apply IH.
Qed.

(** The matcher goes through the lowered text as through the text. *)
Lemma run_lower r : forall k k' st,
  (forall st', k' (lower_state st') = option_map lower_state (k st')) ->
  run r k' (lower_state st) = option_map lower_state (run r k st).
Proof.
  induction r as [|c|neg items| |a IHa b IHb|a IHa|a IHa|i a IHa|i];
    intros k k' st H; cbn [run].
  - apply H.
  - cbn [lower_state rest]. destruct (rest st) as [|x xs] eqn:E; [reflexivity|].
    cbn [map]. rewrite ci_eqb_lower. destruct (ci_eqb x c); [|reflexivity].
    fold (lower_state st). rewrite advance_lower. apply H.
  - cbn [lower_state rest]. destruct (rest st) as [|x xs] eqn:E; [reflexivity|].
    cbn [map]. rewrite cls_matches_lower.
    destruct (cls_matches neg items x); [|reflexivity].
    fold (lower_state st). rewrite advance_lower. apply H.
  - rewrite at_boundary_lower. destruct (at_boundary st); [apply H | reflexivity].
  - apply IHa. intros st'. now apply IHb.
  - rewrite (IHa k k' st H). destruct (run a k st); [reflexivity | apply H].
  - cbn [lower_state rest]. rewrite length_map. fold (lower_state st).
    now apply star_loop_lower.
  - apply IHa. intros st1. rewrite consumed_lower, <- H. reflexivity.
  - change (caps (lower_state st)) with (lower_caps (caps st)).
    rewrite lookup_cap_lower.
    destruct (lookup_cap i (caps st)) as [w|]; [|reflexivity].
    cbn [option_map].
    change (rest (lower_state st)) with (map lower (rest st)).
    rewrite ci_prefix_lower.
    destruct (ci_prefix w (rest st)); [|reflexivity].
    rewrite length_map, advance_lower. apply H.
Qed.

Lemma search_from_lower r : forall ahead before,
  search_from r (map lower before) (map lower ahead)
  = option_map lower_match (search_from r before ahead).
Proof.
  induction ahead as [|c ahead IH]; intros before; cbn [search_from map].
  - change (MState (map lower before) [] []) with (lower_state (MState before [] [])).
    rewrite (run_lower r Some Some) by reflexivity.
    destruct (run r Some _) as [st'|]; [|reflexivity].
    cbn [option_map]. unfold lower_match. cbn [m_start m_text m_caps].
    now rewrite consumed_lower, length_map.
  - change (MState (map lower before) (lower c :: map lower ahead) [])
      with (lower_state (MState before (c :: ahead) [])).
    rewrite (run_lower r Some Some) by reflexivity.
    destruct (run r Some _) as [st'|].
    + cbn [option_map]. unfold lower_match. cbn [m_start m_text m_caps].
      now rewrite consumed_lower, length_map.
    + apply (IH (c :: before)).
Qed.

(** [re.search] in the lowered text finds the lowered match. *)
Lemma re_search_lower pattern text :
  re_search pattern (str_lower text) = option_map lower_match (re_search pattern text).
Proof.
  unfold re_search. destruct (re_compile pattern) as [r|]; [|reflexivity].
  rewrite list_of_str_lower. apply (search_from_lower r _ []).
Qed.

Lemma str_lower_idem text : str_lower (str_lower text) = str_lower text.
Proof.
  unfold str_lower at 1. rewrite list_of_str_lower, map_lower_idem. reflexivity.
Qed.

Lemma column_loop_lower text : forall patterns,
  column_loop patterns (str_lower text)
  = option_map str_lower (column_loop patterns text).
Proof.
  induction patterns as [|pat patterns IH]; [reflexivity|].
  cbn [column_loop]. rewrite re_search_lower.
  destruct (re_search pat text) as [mt|]; [|exact IH].
  cbn [option_map]. unfold group0, lower_match, str_lower. cbn [m_text].
  now rewrite list_ascii_of_string_of_list_ascii.
Qed.

Lemma str_lower_app a b :
  str_lower (a ++ b) = (str_lower a ++ str_lower b)%string.
Proof. unfold str_lower. now rewrite list_of_append, map_app, string_of_app. Qed.

Lemma group_lower n mt : group n (lower_match mt) = option_map str_lower (group n mt).
Proof.
  unfold group, lower_match, str_lower. cbn [m_caps]. rewrite lookup_cap_lower.
  destruct (lookup_cap n (m_caps mt)) as [w|]; [|reflexivity].
  cbn [option_map]. now rewrite list_ascii_of_string_of_list_ascii.
Qed.

Lemma table_loop_lower text : forall patterns,
  option_map str_lower (table_loop patterns (str_lower text))
  = option_map str_lower (table_loop patterns text).
Proof.
  induction patterns as [|pat patterns IH]; [reflexivity|].
  rewrite !table_loop_cons, re_search_lower.
  destruct (re_search (table_regex pat) text) as [mt|]; cbn [option_map]; [|exact IH].
  rewrite group_lower, !str_lower_app. do 2 f_equal.
  destruct (group 2 mt) as [t|]; cbn [option_map]; [|reflexivity].
  apply str_lower_idem.
Qed.

Lemma find_in_text_lower text :
  option_map str_lower (find_in_text (str_lower text))
  = option_map str_lower (find_in_text text).
Proof.
  unfold find_in_text. rewrite str_lower_idem, column_loop_lower.
  destruct (re_search "\bselect\b" (str_lower text)); [|reflexivity].
  destruct (column_loop PHONE_PATTERNS text) as [s|]; cbn [option_map].
  - now rewrite str_lower_idem.
  - destruct (re_search "select\s+\*" (str_lower text)); [|reflexivity].
    apply table_loop_lower.
Qed.

(** X6. The verdict of the classifier does not depend on letter case: a
    text and its lower-case form are both classified or both not, and the
    two results are equal up to letter case. *)
Theorem classifier_ignores_case (q : string) :
  exists a b,
    find_phone_pattern_in_query (PStr q) = Ok a
    /\ find_phone_pattern_in_query (PStr (str_lower q)) = Ok b
    /\ option_map str_lower b = option_map str_lower a.
Proof.
  exists (find_in_text q), (find_in_text (str_lower q)).
  rewrite !find_str_unfold. repeat split. apply find_in_text_lower.
Qed.

(** ** The consolidator: further properties *)

Lemma dict_get_default_set k v d k4 default :
  dict_get_default (dict_set k v d) k4 default
  = if key_eqb k k4 then v else dict_get_default d k4 default.
Proof.
  unfold dict_get_default. rewrite dict_get_set. now destruct (key_eqb k k4).
Qed.

Lemma row_cells_set ks k v d :
  row_cells ks (dict_set k v d)
  = map (fun key => if key_eqb k key then v else dict_get_default d key (CStr "")) ks.
Proof. unfold row_cells. apply map_ext. intros key. apply dict_get_default_set. Qed.

(** The cells of an output row: the pattern in the last column, and in any
    column named as the added one. *)
Lemma row_cells_output ks d p :
  row_cells (ks ++ [Some MPP]) (output_row (d, p))
  = map (fun key => if key_eqb (Some MPP) key then CStr p
                    else dict_get_default d key (CStr "")) ks ++ [CStr p].
Proof.
  unfold output_row. cbn [fst snd]. rewrite row_cells_set, map_app.
  cbn [map]. now rewrite key_eqb_refl.
Qed.

Lemma row_cells_output_fresh ks d p :
  ~ In (Some MPP) ks ->
  row_cells (ks ++ [Some MPP]) (output_row (d, p)) = row_cells ks d ++ [CStr p].
Proof.
  intros H. rewrite row_cells_output. f_equal. unfold row_cells.
  apply map_ext_in. intros key Hk. destruct (key_eqb (Some MPP) key) eqn:E; [|reflexivity].
  apply key_eqb_eq in E. subst key. now elim H.
Qed.

Lemma fits_output ks d p :
  (forall k, In k (dict_keys d) -> In k ks) ->
  fits (ks ++ [Some MPP]) (output_row (d, p)).
Proof.
  intros H k Hk. unfold output_row in Hk. cbn [fst snd] in Hk.
  apply dict_set_keys in Hk. apply in_or_app.
  destruct Hk as [->|Hk]; [right; now left | left; now apply H].
Qed.

Lemma dict_set_fresh k v d :
  ~ In k (dict_keys d) -> dict_set k v d = d ++ [(k, v)].
Proof.
  induction d as [|[k0 v0] d IH]; intros H; simpl; [reflexivity|].
  destruct (key_eqb k0 k) eqn:E.
  - apply key_eqb_eq in E. subst k0. elim H. now left.
  - rewrite IH; [reflexivity|]. intros Hk. apply H. now right.
Qed.

Lemma zip_fold_nodup : forall (keys : list pykey) (values : list cell) (d : pydict),
  NoDup keys -> (forall k, In k keys -> ~ In k (dict_keys d)) ->
  fold_left (fun d kv => dict_set (fst kv) (snd kv) d) (combine keys values) d
  = d ++ combine keys values.
Proof.
  induction keys as [|k keys IH]; intros values d N D; simpl.
  - now rewrite app_nil_r.
  - destruct values as [|v values]; simpl; [now rewrite app_nil_r|].
    inversion N as [|? ? Hk N']; subst.
    rewrite dict_set_fresh by (apply D; now left).
    rewrite IH; [now rewrite <- app_assoc | exact N'|].
    intros k0 Hk0 Hin. unfold dict_keys in Hin. rewrite map_app in Hin.
    apply in_app_or in Hin. destruct Hin as [Hin|[<-|[]]].
    + apply (D k0); [now right | exact Hin].
    + now apply Hk.
Qed.

Lemma dict_of_zip_nodup keys values :
  NoDup keys -> dict_of_zip keys values = combine keys values.
Proof.
  intros N. unfold dict_of_zip. rewrite zip_fold_nodup; [reflexivity | exact N|].
  intros k _ [].
Qed.

Lemma nodup_map_some (h : list string) : NoDup h -> NoDup (map Some h).
Proof.
  induction 1 as [|a l Ha N IH]; simpl; constructor; [|exact IH].
  intros Hin. apply in_map_iff in Hin. destruct Hin as [b [E Hb]].
  injection E as ->. now apply Ha.
Qed.

(** The dictionary of a record as long as a header without repeated names:
    the names paired with the fields, in order. *)
Lemma reader_row_full h r :
  NoDup h -> List.length r = List.length h ->
  reader_row h r = combine (map Some h) (map CStr r).
Proof.
  intros N L. unfold reader_row. rewrite L, Nat.ltb_irrefl.
  apply dict_of_zip_nodup. now apply nodup_map_some.
Qed.

Lemma combine_keys {A B} : forall (ks : list A) (vs : list B),
  List.length vs = List.length ks -> map fst (combine ks vs) = ks.
Proof.
  induction ks as [|k ks IH]; intros vs L; [reflexivity|].
  destruct vs as [|v vs]; [discriminate|]. simpl. f_equal. apply IH.
  simpl in L. now injection L.
Qed.

Lemma row_cells_skip ks k v d :
  ~ In k ks -> row_cells ks ((k, v) :: d) = row_cells ks d.
Proof.
  intros H. unfold row_cells. apply map_ext_in. intros key Hk.
  unfold dict_get_default. simpl. destruct (key_eqb k key) eqn:E; [|reflexivity].
  apply key_eqb_eq in E. subst. now elim H.
Qed.

Lemma row_cells_combine : forall (ks : list pykey) (vs : list cell),
  NoDup ks -> List.length vs = List.length ks ->
  row_cells ks (combine ks vs) = vs.
Proof.
  induction ks as [|k ks IH]; intros vs N L.
  - destruct vs; [reflexivity | discriminate].
  - destruct vs as [|v vs]; [discriminate|].
    inversion N as [|? ? Hk N']; subst. simpl in L. injection L as L.
    change (row_cells (k :: ks) (combine (k :: ks) (v :: vs)))
      with (dict_get_default ((k, v) :: combine ks vs) k (CStr "")
            :: row_cells ks ((k, v) :: combine ks vs)).
    unfold dict_get_default at 1. simpl. rewrite key_eqb_refl.
    f_equal. rewrite row_cells_skip by exact Hk. now apply IH.
Qed.

(** Such a record is read back from its dictionary, field by field. *)
Lemma reader_row_cells h r :
  NoDup h -> List.length r = List.length h ->
  dict_keys (reader_row h r) = map Some h
  /\ row_cells (map Some h) (reader_row h r) = map CStr r.
Proof.
  intros N L. rewrite (reader_row_full h r N L). split.
  - apply combine_keys. now rewrite !length_map.
  - apply row_cells_combine; [now apply nodup_map_some | now rewrite !length_map].
Qed.

Lemma forall_images {A B} (f : A -> B) (P : A -> Prop) : forall l,
  Forall (fun y => exists x, y = f x /\ P x) l ->
  exists l', l = map f l' /\ Forall P l'.
Proof.
  induction l as [|y l IH]; intros H.
  - exists []. split; [reflexivity | constructor].
  - inversion H as [|? ? [x [-> Px]] Hl]; subst.
    destruct (IH Hl) as [l' [-> Pl]]. exists (x :: l'). split; [reflexivity|].
    now constructor.
Qed.

Section ConsolidatorFurther.

Variable json_loads : string -> result pyval.

Local Abbreviation process := (process_csv_file json_loads).
Local Abbreviation reported := (process_csv_file_reported json_loads).
Local Abbreviation rows := (rows_loop json_loads).
Local Abbreviation pattern_of := (row_pattern json_loads).
Local Abbreviation run_main := (main json_loads).
Local Abbreviation loop := (files_loop json_loads).
Local Abbreviation kept := (kept_rows json_loads).

(** The pattern of a row is never the empty string, so the test
    [if matched_pattern] only tells [None] apart. *)
Lemma row_pattern_nonempty d p : pattern_of d = Ok (Some p) -> p <> "".
Proof.
  unfold row_pattern. intros H.
  destruct (loads_cell json_loads _) as [props|e]; [|discriminate H].
  cbn in H. destruct (py_get props "query" (PStr "")) as [q|e]; [|discriminate H].
  cbn in H. now apply find_result_nonempty in H.
Qed.

(** The rows kept from the records of a file none of which raises an
    exception the inner handler lets through. *)
Lemma rows_loop_filter h : forall records fails acc,
  (forall r e, In r records -> r <> [] ->
     pattern_of (reader_row h r) = Raise e -> inner_handler e = true) ->
  rows h records fails acc
  = (acc ++ flat_map (fun r =>
               match r with
               | [] => []
               | _ => match pattern_of (reader_row h r) with
                      | Ok (Some p) => [(reader_row h r, p)]
                      | _ => []
                      end
               end) records,
     if fails then Some OtherError else None).
Proof.
  induction records as [|r records IH]; intros fails acc H.
  - simpl. now rewrite app_nil_r.
  - assert (H' : forall r0 e, In r0 records -> r0 <> [] ->
               pattern_of (reader_row h r0) = Raise e -> inner_handler e = true).
    { intros r0 e Hin. apply H. now right. }
    cbn [rows_loop flat_map]. destruct r as [|x r]; [now apply IH|].
    destruct (pattern_of (reader_row h (x :: r))) as [[p|]|e] eqn:E.
    + apply row_pattern_nonempty in E. apply String.eqb_neq in E. rewrite E.
      rewrite IH by exact H'. now rewrite <- app_assoc.
    + now apply IH.
    + rewrite (H (x :: r) e (or_introl eq_refl)) by (discriminate || exact E).
      now apply IH.
Qed.

Lemma rows_loop_records h (P : list string -> Prop) : forall records fails acc,
  (forall r, In r records -> r <> [] -> P r) ->
  Forall (fun rp => exists r, rp = (reader_row h (fst r), snd r) /\ P (fst r)) acc ->
  Forall (fun rp => exists r, rp = (reader_row h (fst r), snd r) /\ P (fst r))
    (fst (rows h records fails acc)).
Proof.
  induction records as [|r records IH]; intros fails acc H A; [exact A|].
  assert (H' : forall r0, In r0 records -> r0 <> [] -> P r0).
  { intros r0 Hin. apply H. now right. }
  cbn [rows_loop]. destruct r as [|x r]; [now apply IH|].
  destruct (pattern_of (reader_row h (x :: r))) as [[p|]|e]; try (now apply IH).
  - destruct (String.eqb p ""); [now apply IH|]. apply IH; [exact H'|].
    apply Forall_app. split; [exact A|]. constructor; [|constructor].
    exists (x :: r, p). split; [reflexivity|]. apply H; [now left | discriminate].
  - destruct (inner_handler e); [now apply IH | exact A].
Qed.

Lemma files_loop_schema_keys fs ks : forall files all,
  (forall g d p, In g files -> In (d, p) (process (fs g)) -> dict_keys d = ks) ->
  loop fs files all None = (all, None)
  \/ snd (loop fs files all None) = Some (ks ++ [Some MPP]).
Proof.
  induction files as [|f files IH]; intros all H; [now left|].
  rewrite files_loop_step. destruct (process (fs f)) as [|[row0 p0] more] eqn:P.
  - apply IH. intros g d p Hg. apply H. now right.
  - right. rewrite files_loop_schema_kept. do 2 f_equal.
    apply (H f row0 p0); [now left | rewrite P; now left].
Qed.

Lemma header_loop_uniform fs h fieldnames : forall files,
  (forall g, In g files -> header_of (fs g) = None \/ header_of (fs g) = Some h) ->
  (exists g, In g files /\ header_of (fs g) = Some h) ->
  header_loop fs files fieldnames = Some (map Some h ++ [Some MPP]).
Proof.
  induction files as [|f files IH]; intros U [g [Hg Hh]]; [destruct Hg|].
  simpl. destruct (U f (or_introl eq_refl)) as [N|S].
  - assert (E : header_loop fs files fieldnames = Some (map Some h ++ [Some MPP])).
    { apply IH; [intros g0 Hg0; apply U; now right|].
      destruct Hg as [<-|Hg]; [congruence | now exists g]. }
    destruct (fs f) as [|[|h0 r0] fl]; simpl in N; try discriminate; exact E.
  - destruct (fs f) as [|[|h0 r0] fl]; simpl in S; try discriminate.
    now injection S as ->.
Qed.

End ConsolidatorFurther.

Section ConsolidatorFurtherClaims.

Variable json_loads : string -> result pyval.

Local Abbreviation process := (process_csv_file json_loads).
Local Abbreviation reported := (process_csv_file_reported json_loads).
Local Abbreviation pattern_of := (row_pattern json_loads).
Local Abbreviation run_main := (main json_loads).
Local Abbreviation loop := (files_loop json_loads).
Local Abbreviation kept := (kept_rows json_loads).

(** X7. A [query] member that is no text: when it counts as false ([null],
    [false], zero, an empty array or object) the classifier returns [None]
    and the row is passed over like any row without a match; when it counts
    as true, [.lower()] raises [AttributeError], which the inner handler
    does not catch, and the file ends at that row with the matches found
    before it. *)
Theorem non_text_query_skips_row_or_ends_file header pre row post fails t kvs v :
  row <> [] ->
  dict_get (reader_row header row) (Some "additional_properties") = Some (CStr t) ->
  json_loads t = Ok (PDict kvs) ->
  assoc "query" kvs = Some v ->
  (forall s, v <> PStr s) ->
  if truthy v
  then pattern_of (reader_row header row) = Raise AttributeError
       /\ inner_handler AttributeError = false
       /\ process (Present (header :: pre ++ row :: post) fails)
          = process (Present (header :: pre) false)
  else pattern_of (reader_row header row) = Ok None
       /\ reported (Present (header :: pre ++ row :: post) fails)
          = reported (Present (header :: pre ++ post) fails).
Proof.
  intros Hne Hd Ht Hq Hv.
  assert (A : pattern_of (reader_row header row) = find_phone_pattern_in_query v).
  { unfold row_pattern, dict_get_default. rewrite Hd. simpl. rewrite Ht. simpl.
    now rewrite Hq. }
  unfold find_phone_pattern_in_query in A.
  destruct (truthy v) eqn:T; cbn [negb] in A.
  - assert (B : pattern_of (reader_row header row) = Raise AttributeError).
    { rewrite A. destruct v; try reflexivity. now elim (Hv s). }
    split; [exact B|]. split; [reflexivity|].
    unfold process_csv_file, process_csv_file_reported.
    eapply rows_loop_abort; [exact Hne | exact B | reflexivity].
  - split; [exact A|]. unfold process_csv_file_reported.
    apply rows_loop_skip; [exact Hne | now left].
Qed.

(** X8. When no row of a file raises an exception that the inner handler
    lets through, the file gives exactly the rows whose query is
    classified, in the order of the file and each with its pattern: the
    test [if matched_pattern] never drops a classified row, because the
    classifier never returns an empty text. *)
Theorem file_gives_the_classified_rows h records fails :
  (forall r e, In r records -> r <> [] ->
     pattern_of (reader_row h r) = Raise e -> inner_handler e = true) ->
  reported (Present (h :: records) fails)
  = (flat_map (fun r =>
       match r with
       | [] => []
       | _ => match pattern_of (reader_row h r) with
              | Ok (Some p) => [(reader_row h r, p)]
              | _ => []
              end
       end) records,
     if fails then Some OtherError else None).
Proof.
  intros H. unfold process_csv_file_reported.
  now rewrite (rows_loop_filter json_loads h records fails [] H).
Qed.

(** X9. For the output, a file that exists but is empty, or cannot be
    opened or read at all, counts as a missing file: nothing is kept from
    it and the search for a header passes over it. *)
Theorem empty_file_counts_as_missing fs f fl :
  fs f = Present [] fl ->
  process (fs f) = []
  /\ header_of (fs f) = None
  /\ run_main fs = run_main (with_file fs f Missing).
Proof.
  intros E. rewrite E. split; [reflexivity|]. split; [reflexivity|].
  apply main_with_file; now rewrite E.
Qed.

(** X10. On texts over the code points below U+0100, all of which UTF-8
    encodes: for files that share one header, without repeated names and
    without [matched_phone_pattern], and whose records are as long as the
    header, the run ends normally and the output is the header followed by
    [matched_phone_pattern], then, for every row kept, the fields of its
    record as they were read followed by its pattern. *)
Theorem uniform_files_are_copied fs h :
  NoDup h -> ~ In MPP h ->
  (forall g recs fl, In g csv_files -> fs g = Present recs fl ->
     recs = []
     \/ exists records, recs = h :: records
          /\ Forall (fun r => r = [] \/ List.length r = List.length h) records) ->
  (exists g, In g csv_files /\ header_of (fs g) = Some h) ->
  exists rps : list (list string * string),
    kept fs = map (fun rp => (reader_row h (fst rp), snd rp)) rps
    /\ Forall (fun rp => snd rp <> ""
                         /\ pattern_of (reader_row h (fst rp)) = Ok (Some (snd rp))) rps
    /\ run_main fs
       = RunResult
           (Line (map CStr h ++ [CStr MPP])
            :: map (fun rp => Line (map CStr (fst rp) ++ [CStr (snd rp)])) rps)
           None.
Proof.
  intros N M U X.
  assert (MS : ~ In (Some MPP) (map Some h)).
  { intros Hin. apply in_map_iff in Hin. destruct Hin as [x [E Hx]].
    injection E as ->. now apply M. }
  (* every kept row is the dictionary of a full record *)
  assert (A : forall g, In g csv_files ->
            Forall (fun rp => exists r, rp = (reader_row h (fst r), snd r)
                                        /\ List.length (fst r) = List.length h)
              (process (fs g))).
  { intros g Hg. destruct (fs g) as [|recs fl] eqn:E; [constructor|].
    destruct (U g recs fl Hg E) as [->|[records [-> F]]]; [constructor|].
    unfold process_csv_file, process_csv_file_reported.
    apply (rows_loop_records json_loads h
             (fun r => List.length r = List.length h)); [|constructor].
    intros r Hr Hne. rewrite Forall_forall in F.
    destruct (F r Hr) as [->|L]; [now elim Hne | exact L]. }
  assert (B : Forall (fun rp => exists r, rp = (reader_row h (fst r), snd r)
                                          /\ List.length (fst r) = List.length h)
                (kept fs)).
  { apply Forall_forall. intros rp Hin. unfold kept_rows in Hin.
    apply in_flat_map in Hin. destruct Hin as [g [Hg Hin]].
    pose proof (A g Hg) as Ag. rewrite Forall_forall in Ag. now apply Ag. }
  destruct (forall_images (fun rp : list string * string =>
                             (reader_row h (fst rp), snd rp)) _ _ B)
    as [rps [K L]].
  exists rps. split; [exact K|].
  assert (P : Forall (fun rp => snd rp <> ""
                /\ pattern_of (reader_row h (fst rp)) = Ok (Some (snd rp))) rps).
  { apply Forall_forall. intros rp Hin.
    assert (Hk : In (reader_row h (fst rp), snd rp) (kept fs)).
    { rewrite K. apply in_map_iff. now exists rp. }
    unfold kept_rows in Hk. apply in_flat_map in Hk. destruct Hk as [g [_ Hk]].
    pose proof (process_patterns json_loads (fs g)) as Q.
    rewrite Forall_forall in Q. exact (Q _ Hk). }
  split; [exact P|].
  (* the lines of the rows *)
  assert (C : map (fun r => Line (row_cells (map Some h ++ [Some MPP]) r))
                (map output_row (kept fs))
              = map (fun rp => Line (map CStr (fst rp) ++ [CStr (snd rp)])) rps).
  { rewrite K, !map_map. apply map_ext_in. intros rp Hin.
    rewrite Forall_forall in L. specialize (L rp Hin).
    rewrite row_cells_output_fresh by exact MS.
    now rewrite (proj2 (reader_row_cells h (fst rp) N L)). }
  assert (F : Forall (fits (map Some h ++ [Some MPP])) (map output_row (kept fs))).
  { rewrite K, map_map. apply Forall_forall. intros d Hin.
    apply in_map_iff in Hin. destruct Hin as [rp [<- Hin]].
    rewrite Forall_forall in L. specialize (L rp Hin).
    apply fits_output. intros k Hk.
    now rewrite (proj1 (reader_row_cells h (fst rp) N L)) in Hk. }
  assert (H1 : write_header_only (Some (map Some h ++ [Some MPP]))
               = RunResult [Line (map CStr h ++ [CStr MPP])] None)
    by apply write_header_only_names.
  pose proof (files_loop_rows json_loads fs csv_files [] None) as R.
  rewrite app_nil_l in R. fold (kept fs) in R.
  assert (S : loop fs csv_files [] None = ([], None)
              \/ snd (loop fs csv_files [] None) = Some (map Some h ++ [Some MPP])).
  { apply files_loop_schema_keys. intros g d p Hg Hin.
    pose proof (A g Hg) as Ag. rewrite Forall_forall in Ag.
    destruct (Ag _ Hin) as [r [E Lr]]. injection E as -> _.
    exact (proj1 (reader_row_cells h (fst r) N Lr)). }
  unfold main. destruct S as [E|E].
  - rewrite E in *. cbn [fst] in R.
    assert (K0 : rps = []).
    { symmetry in R. apply map_eq_nil in R. rewrite K in R.
      now apply map_eq_nil in R. }
    rewrite K0. cbn [map].
    rewrite (header_loop_uniform fs h None csv_files); [exact H1| |exact X].
    intros g Hg. destruct (fs g) as [|recs fl] eqn:Eg; [now left|].
    destruct (U g recs fl Hg Eg) as [->|[records [-> _]]]; [now left | now right].
  - destruct (loop fs csv_files [] None) as [all fieldnames].
    cbn [fst snd] in R, E. subst all fieldnames.
    destruct (map output_row (kept fs)) as [|r0 more] eqn:Q.
    + replace (match map Some h ++ [Some MPP] with [] => _ | _ :: _ => _ end)
        with (Some (map Some h ++ [Some MPP])) by (now destruct h).
      rewrite H1. cbn [map] in C. now rewrite <- C.
    + unfold write_rows. rewrite writeheader_ok, (writerows_all _ _ F), C.
      now rewrite map_app, map_map.
Qed.

End ConsolidatorFurtherClaims.

(** X11. An input that already has a column [matched_phone_pattern]: the
    row keeps its keys, the value read under that name is replaced by the
    pattern, and the pattern is written in that column and again in the
    column added at the end. *)
Theorem existing_pattern_column_is_overwritten h r p :
  NoDup h -> List.length r = List.length h -> In MPP h ->
  let d := output_row (reader_row h r, p) in
  dict_keys d = map Some h
  /\ dict_get d (Some MPP) = Some (CStr p)
  /\ fits (dict_keys (reader_row h r) ++ [Some MPP]) d
  /\ row_cells (dict_keys (reader_row h r) ++ [Some MPP]) d
     = map (fun kv => if String.eqb MPP (fst kv) then CStr p else CStr (snd kv))
         (combine h r) ++ [CStr p].
Proof.
  intros N L M d. subst d.
  destruct (reader_row_cells h r N L) as [K C].
  split; [|split; [|split]].
  - unfold output_row. cbn [fst snd].
    assert (G : forall (dd : pydict) k v, In k (dict_keys dd) ->
              dict_keys (dict_set k v dd) = dict_keys dd).
    { induction dd as [|[k0 v0] dd IH]; intros k v Hin; [destruct Hin|].
      simpl. destruct (key_eqb k0 k) eqn:E; [reflexivity|].
      simpl. f_equal. apply IH. destruct Hin as [Hin|Hin]; [|exact Hin].
      simpl in Hin. subst k0. now rewrite key_eqb_refl in E. }
    rewrite G; [exact K|]. rewrite K. now apply in_map.
  - unfold output_row. cbn [fst snd]. rewrite dict_get_set. now rewrite key_eqb_refl.
  - apply fits_output. tauto.
  - rewrite row_cells_output, K. f_equal.
    rewrite (reader_row_full h r N L).
    clear K C M. revert r L. induction h as [|a h IH]; intros r L.
    + destruct r; [reflexivity | discriminate].
    + destruct r as [|x r]; [discriminate|]. simpl in L. injection L as L.
      inversion N as [|? ? Ha N']; subst. cbn [map combine fst snd].
      f_equal.
      * cbn [key_eqb]. destruct (String.eqb MPP a); [reflexivity|].
        unfold dict_get_default. cbn [dict_get key_eqb]. now rewrite String.eqb_refl.
      * rewrite <- (IH N' r L). apply map_ext_in. intros k Hk.
        destruct (key_eqb (Some MPP) k); [reflexivity|].
        unfold dict_get_default. cbn [dict_get].
        destruct (key_eqb (Some a) k) eqn:E; [|reflexivity].
        apply key_eqb_eq in E. subst k. apply in_map_iff in Hk.
        destruct Hk as [b [Eb Hb]]. injection Eb as ->. now elim Ha.
Qed.

(** ** Texts beyond U+00FF *)





(** A pattern that UTF-8 cannot encode: for a query that ends in a lone
    surrogate after a table name, the table fallback copies the surrogate
    into its result. *)
Lemma surrogate_in_table_pattern :
  let q := Wide.of_string "select * from contacts" ++ [Wide.UD800] in
  Wide.find_phone_pattern_in_query q
  = Some (Wide.of_string "SELECT * from contacts" ++ [Wide.UD800])
  /\ Wide.utf8_encodable (Wide.of_string "SELECT * from contacts" ++ [Wide.UD800])
     = false.
Proof. split; vm_compute; reflexivity. Qed.

(** A column pattern passes over word characters only, so what it matches
    holds no surrogate. *)
Lemma word_text_encodable (w : Wide.wtext) :
  forallb Wide.is_word w = true -> Wide.utf8_encodable w = true.
Proof.
  unfold Wide.utf8_encodable. rewrite !forallb_forall.
  intros H x Hx. specialize (H x Hx). now destruct x.
Qed.

(** ** The claims on concrete inputs *)

(** C1, as stated, fails: the read of the first file fails after one
    matching row, the failure is reported, and that row is in the output,
    followed by the match of the next file. *)
Lemma read_failure_discards_matches_counterexample :
  snd (process_csv_file_reported fragment_loads interrupted_file) = Some OtherError
  /\ process_csv_file fragment_loads interrupted_file <> []
  /\ main fragment_loads fs_interrupted
     = RunResult
         [ Line [CStr "id"; CStr "additional_properties"; CStr MPP];
           Line [CStr "1"; CStr (json_query "select phone from t"); CStr "phone"];
           Line [CStr "2"; CStr (json_query "SELECT tel FROM users"); CStr "tel"] ]
         None.
Proof.
  split; [reflexivity|]. split; [discriminate|]. vm_compute. reflexivity.
Qed.

Lemma read_failure_keeps_earlier_matches_witness :
  fs_interrupted "execute_query_05.csv" = Present [log_header; row_phone] true
  /\ snd (process_csv_file_reported fragment_loads
            (fs_interrupted "execute_query_05.csv")) <> None
  /\ process_csv_file fragment_loads (fs_interrupted "execute_query_05.csv")
     = process_csv_file fragment_loads (Present [log_header; row_phone] false)
  /\ main fragment_loads fs_interrupted
     = main fragment_loads
         (with_file fs_interrupted "execute_query_05.csv"
            (Present [log_header; row_phone] false)).
Proof.
  split; [reflexivity|].
  apply (read_failure_keeps_earlier_matches fragment_loads fs_interrupted
           "execute_query_05.csv" [log_header; row_phone]).
  reflexivity.
Defined.

Lemma schema_fixed_by_first_match_witness :
  process_csv_file fragment_loads (fs_second_matches "execute_query_05.csv") = []
  /\ process_csv_file fragment_loads (fs_second_matches "execute_query_07.csv") = []
  /\ snd (files_loop fragment_loads fs_second_matches csv_files [] None)
     = Some [Some "id"; Some "additional_properties"; Some MPP]
  /\ exists items,
       written (main fragment_loads fs_second_matches)
       = Line [CStr "id"; CStr "additional_properties"; CStr MPP] :: items.
Proof.
  split; [reflexivity|]. split; [reflexivity|].
  pose proof (schema_fixed_by_first_match fragment_loads fs_second_matches
                ["execute_query_05.csv"] "execute_query_06.csv"
                ["execute_query_07.csv"; "query_results_05.csv";
                 "query_results_06.csv"; "query_results_07.csv"]
                (reader_row log_header row_phone) "phone"
                [(reader_row log_header row_tel, "tel")]) as H.
  cbv zeta in H. destruct H as [A [_ [_ D]]].
  - reflexivity.
  - intros g [<-|[]]. reflexivity.
  - reflexivity.
  - split; [exact A | exact D].
Defined.





Lemma no_match_writes_header_only_witness :
  kept_rows fragment_loads fs_no_match = []
  /\ file_exists (fs_no_match "execute_query_05.csv") = false
  /\ header_of (fs_no_match "execute_query_06.csv") = Some log_header
  /\ raised (main fragment_loads fs_no_match) = None
  /\ written (main fragment_loads fs_no_match)
     = [Line [CStr "id"; CStr "additional_properties"; CStr MPP]]
  /\ written (main fragment_loads (fun _ => Missing)) = [RawText default_header].
Proof.
  split; [reflexivity|]. split; [reflexivity|]. split; [reflexivity|].
  destruct (no_match_writes_header_only fragment_loads fs_no_match eq_refl)
    as [_ [R [_ [H _]]]].
  split; [exact R|]. split.
  - apply (H ["execute_query_05.csv"] "execute_query_06.csv"
             ["execute_query_07.csv"; "query_results_05.csv";
              "query_results_06.csv"; "query_results_07.csv"] log_header).
    + reflexivity.
    + intros g [<-|[]]. reflexivity.
    + reflexivity.
  - destruct (no_match_writes_header_only fragment_loads (fun _ => Missing) eq_refl)
      as [_ [_ [_ [_ D]]]].
    apply D. intros g _. reflexivity.
Defined.

Lemma output_depends_on_listed_files_only_witness :
  (forall g, In g csv_files -> fs_second_matches g = fs_with_notes g)
  /\ fs_second_matches "notes.csv" <> fs_with_notes "notes.csv"
  /\ main fragment_loads fs_second_matches = main fragment_loads fs_with_notes
  /\ file_bytes csv_format (main fragment_loads fs_second_matches)
     = file_bytes csv_format (main fragment_loads fs_with_notes).
Proof.
  assert (A : forall g, In g csv_files -> fs_second_matches g = fs_with_notes g).
  { intros g H. repeat (destruct H as [<-|H]; [reflexivity|]). destruct H. }
  split; [exact A|]. split; [discriminate|].
  apply (output_depends_on_listed_files_only fragment_loads csv_format
           fs_second_matches fs_with_notes A).
Defined.



Lemma table_token_has_no_delimiter_witness :
  In "\bcontacts?\b" (tl PHONE_TABLES)
  /\ option_map (group 2)
       (re_search (table_regex "\bcontacts?\b") "select * from `db.Contacts`, x")
     = Some (Some "db.Contacts")
  /\ forallb token_char (list_ascii_of_string "db.Contacts") = true.
Proof.
  split; [now left|].
  destruct (re_search (table_regex "\bcontacts?\b") "select * from `db.Contacts`, x")
    as [mt|] eqn:E; [|vm_compute in E; discriminate].
  assert (G : group 2 mt = Some "db.Contacts")
    by (vm_compute in E; injection E as <-; reflexivity).
  split; [cbn [option_map]; now rewrite G|].
  apply (table_token_has_no_delimiter "\bcontacts?\b"
           "select * from `db.Contacts`, x" mt "db.Contacts").
  - now left.
  - exact E.
  - exact G.
Defined.

Lemma column_name_whole_word_witness :
  In "\btel\b" (tl PHONE_PATTERNS)
  /\ option_map group0 (re_search "\btel\b" "select Tel, telephone from t")
     = Some "Tel"
  /\ has_word "tel" "select Tel, telephone from t"
  /\ exists name,
       In name COLUMN_NAMES
       /\ "\btel\b" = ("\b" ++ name ++ "\b")%string
       /\ (re_search "\btel\b" "select Tel, telephone from t" <> None
           <-> has_word name "select Tel, telephone from t")
       /\ (forall mt, re_search "\btel\b" "select Tel, telephone from t" = Some mt ->
             str_lower (group0 mt) = name).
Proof.
  assert (H : In "\btel\b" (tl PHONE_PATTERNS)) by (simpl; tauto).
  split; [exact H|]. split; [vm_compute; reflexivity|]. split.
  - exists "select ", "Tel", ", telephone from t". repeat split.
  - exact (proj2 column_name_whole_word "\btel\b" "select Tel, telephone from t" H).
Defined.

Lemma table_fallback_gives_token_witness :
  has_word "select" "select * from `db.Contacts`, x"
  /\ column_loop PHONE_PATTERNS "select * from `db.Contacts`, x" = None
  /\ re_search (table_regex "\to_contact?\b") "select * from `db.Contacts`, x" = None
  /\ find_phone_pattern_in_query (PStr "select * from `db.Contacts`, x")
     = Ok (Some "SELECT * from db.Contacts")
  /\ (find_phone_pattern_in_query (PStr "select * from `db.Contacts`, x") = Ok None
      \/ exists token,
           find_phone_pattern_in_query (PStr "select * from `db.Contacts`, x")
           = Ok (Some ("SELECT * from " ++ token)%string)
           /\ forallb token_char (list_ascii_of_string token) = true).
Proof.
  assert (Hs : has_word "select" "select * from `db.Contacts`, x")
    by (exists "", "select", " * from `db.Contacts`, x"; repeat split).
  assert (Hc : column_loop PHONE_PATTERNS "select * from `db.Contacts`, x" = None)
    by (vm_compute; reflexivity).
  assert (Ht : re_search (table_regex "\to_contact?\b")
                 "select * from `db.Contacts`, x" = None)
    by (vm_compute; reflexivity).
  split; [exact Hs|]. split; [exact Hc|]. split; [exact Ht|].
  split; [vm_compute; reflexivity|].
  exact (table_fallback_gives_token "select * from `db.Contacts`, x" Hs Hc Ht).
Defined.

(** ** The further properties on concrete inputs *)

Lemma classifier_result_is_from_query_witness :
  find_phone_pattern_in_query (PStr "select * from contacts")
  = Ok (Some "SELECT * from contacts")
  /\ exists q, PStr "select * from contacts" = PStr q
       /\ has_word "select" q
       /\ "SELECT * from contacts" <> ""
       /\ (occurs_in "SELECT * from contacts" q
           \/ exists token,
                "SELECT * from contacts" = ("SELECT * from " ++ token)%string
                /\ occurs_in token q).
Proof.
  split; [vm_compute; reflexivity|].
  apply (classifier_result_is_from_query (PStr "select * from contacts")
           "SELECT * from contacts").
  vm_compute. reflexivity.
Defined.

Lemma listed_column_is_always_flagged_witness :
  has_word "select" "select Tel, telephone from t"
  /\ In "tel" COLUMN_NAMES
  /\ has_word "tel" "select Tel, telephone from t"
  /\ find_phone_pattern_in_query (PStr "select Tel, telephone from t") = Ok (Some "Tel")
  /\ exists s pat mt,
       find_phone_pattern_in_query (PStr "select Tel, telephone from t") = Ok (Some s)
       /\ In pat PHONE_PATTERNS
       /\ re_search pat "select Tel, telephone from t" = Some mt
       /\ s = group0 mt
       /\ s <> ""
       /\ occurs_in s "select Tel, telephone from t".
Proof.
  assert (Hs : has_word "select" "select Tel, telephone from t")
    by (exists "", "select", " Tel, telephone from t"; repeat split).
  assert (Hn : In "tel" COLUMN_NAMES) by (simpl; tauto).
  assert (Hw : has_word "tel" "select Tel, telephone from t")
    by (exists "select ", "Tel", ", telephone from t"; repeat split).
  split; [exact Hs|]. split; [exact Hn|]. split; [exact Hw|].
  split; [vm_compute; reflexivity|].
  exact (listed_column_is_always_flagged "select Tel, telephone from t" "tel" Hs Hn Hw).
Defined.

Lemma result_is_identifier_or_select_star_witness :
  find_phone_pattern_in_query (PStr "select a.to_contact_orig, phone from x")
  = Ok (Some "to_contact_orig")
  /\ (column_loop PHONE_PATTERNS "select a.to_contact_orig, phone from x"
      = Some "to_contact_orig"
      /\ whole_identifier "to_contact_orig" "select a.to_contact_orig, phone from x"
      \/ column_loop PHONE_PATTERNS "select a.to_contact_orig, phone from x" = None
         /\ exists token, "to_contact_orig" = ("SELECT * from " ++ token)%string).
Proof.
  assert (H : find_phone_pattern_in_query (PStr "select a.to_contact_orig, phone from x")
              = Ok (Some "to_contact_orig")) by (vm_compute; reflexivity).
  split; [exact H|].
  exact (result_is_identifier_or_select_star
           "select a.to_contact_orig, phone from x" "to_contact_orig" H).
Defined.

Lemma classifier_ignores_case_witness :
  find_phone_pattern_in_query (PStr "SELECT Phone FROM Users") = Ok (Some "Phone")
  /\ find_phone_pattern_in_query (PStr (str_lower "SELECT Phone FROM Users"))
     = Ok (Some "phone")
  /\ exists a b,
       find_phone_pattern_in_query (PStr "SELECT Phone FROM Users") = Ok a
       /\ find_phone_pattern_in_query (PStr (str_lower "SELECT Phone FROM Users")) = Ok b
       /\ option_map str_lower b = option_map str_lower a.
Proof.
  split; [vm_compute; reflexivity|]. split; [vm_compute; reflexivity|].
  exact (classifier_ignores_case "SELECT Phone FROM Users").
Defined.

Lemma non_text_query_skips_row_or_ends_file_witness :
  (row_number <> []
   /\ dict_get (reader_row log_header row_number) (Some "additional_properties")
      = Some (CStr (json_query_value "5"))
   /\ value_loads (json_query_value "5") = Ok (PDict [("query", PInt 5)])
   /\ (forall s, PInt 5 <> PStr s)
   /\ row_pattern value_loads (reader_row log_header row_number) = Raise AttributeError
   /\ inner_handler AttributeError = false
   /\ process_csv_file value_loads
        (Present (log_header :: [row_phone] ++ row_number :: [row_tel]) false)
      = process_csv_file value_loads (Present (log_header :: [row_phone]) false))
  /\ (row_null <> []
      /\ dict_get (reader_row log_header row_null) (Some "additional_properties")
         = Some (CStr (json_query_value "null"))
      /\ value_loads (json_query_value "null") = Ok (PDict [("query", PNone)])
      /\ row_pattern value_loads (reader_row log_header row_null) = Ok None
      /\ process_csv_file_reported value_loads
           (Present (log_header :: [row_phone] ++ row_null :: [row_tel]) false)
         = process_csv_file_reported value_loads
             (Present (log_header :: [row_phone] ++ [row_tel]) false)).
Proof.
  split.
  - split; [discriminate|]. split; [reflexivity|]. split; [reflexivity|].
    split; [discriminate|].
    apply (non_text_query_skips_row_or_ends_file value_loads log_header [row_phone]
             row_number [row_tel] false (json_query_value "5")
             [("query", PInt 5)] (PInt 5)).
    + discriminate.
    + reflexivity.
    + reflexivity.
    + reflexivity.
    + discriminate.
  - split; [discriminate|]. split; [reflexivity|]. split; [reflexivity|].
    apply (non_text_query_skips_row_or_ends_file value_loads log_header [row_phone]
             row_null [row_tel] false (json_query_value "null")
             [("query", PNone)] PNone).
    + discriminate.
    + reflexivity.
    + reflexivity.
    + reflexivity.
    + discriminate.
Defined.

Lemma file_gives_the_classified_rows_witness :
  let records := [row_plain; row_phone; row_malformed; []; row_no_query; row_tel] in
  (forall r e, In r records -> r <> [] ->
     row_pattern fragment_loads (reader_row log_header r) = Raise e ->
     inner_handler e = true)
  /\ process_csv_file_reported fragment_loads (Present (log_header :: records) false)
     = ([(reader_row log_header row_phone, "phone");
         (reader_row log_header row_tel, "tel")], None)
  /\ process_csv_file_reported fragment_loads (Present (log_header :: records) false)
     = (flat_map (fun r =>
          match r with
          | [] => []
          | _ => match row_pattern fragment_loads (reader_row log_header r) with
                 | Ok (Some p) => [(reader_row log_header r, p)]
                 | _ => []
                 end
          end) records,
        None).
Proof.
  intros records.
  assert (H : forall r e, In r records -> r <> [] ->
     row_pattern fragment_loads (reader_row log_header r) = Raise e ->
     inner_handler e = true).
  { intros r e Hin Hne E. subst records. cbn [In] in Hin.
    destruct Hin as [<-|[<-|[<-|[<-|[<-|[<-|[]]]]]]];
      try (now elim Hne); vm_compute in E; try discriminate E.
    injection E as <-. reflexivity. }
  split; [exact H|]. split; [vm_compute; reflexivity|].
  exact (file_gives_the_classified_rows fragment_loads log_header records false H).
Defined.

Lemma empty_file_counts_as_missing_witness :
  fs_unopened_first "execute_query_05.csv" = Present [] true
  /\ written (main fragment_loads fs_unopened_first)
     = [Line [CStr "id"; CStr "additional_properties"; CStr MPP]]
  /\ process_csv_file fragment_loads (fs_unopened_first "execute_query_05.csv") = []
  /\ header_of (fs_unopened_first "execute_query_05.csv") = None
  /\ main fragment_loads fs_unopened_first
     = main fragment_loads (with_file fs_unopened_first "execute_query_05.csv" Missing).
Proof.
  split; [reflexivity|]. split; [vm_compute; reflexivity|].
  exact (empty_file_counts_as_missing fragment_loads fs_unopened_first
           "execute_query_05.csv" true eq_refl).
Defined.

Lemma uniform_files_are_copied_witness :
  NoDup log_header
  /\ ~ In MPP log_header
  /\ main fragment_loads fs_interrupted
     = RunResult
         [ Line [CStr "id"; CStr "additional_properties"; CStr MPP];
           Line [CStr "1"; CStr (json_query "select phone from t"); CStr "phone"];
           Line [CStr "2"; CStr (json_query "SELECT tel FROM users"); CStr "tel"] ]
         None
  /\ exists rps : list (list string * string),
       kept_rows fragment_loads fs_interrupted
       = map (fun rp => (reader_row log_header (fst rp), snd rp)) rps
       /\ Forall (fun rp => snd rp <> ""
                    /\ row_pattern fragment_loads (reader_row log_header (fst rp))
                       = Ok (Some (snd rp))) rps
       /\ main fragment_loads fs_interrupted
          = RunResult
              (Line (map CStr log_header ++ [CStr MPP])
               :: map (fun rp => Line (map CStr (fst rp) ++ [CStr (snd rp)])) rps)
              None.
Proof.
  assert (N : NoDup log_header).
  { repeat constructor; simpl; intuition discriminate. }
  assert (M : ~ In MPP log_header) by (simpl; intuition discriminate).
  split; [exact N|]. split; [exact M|]. split; [vm_compute; reflexivity|].
  apply (uniform_files_are_copied fragment_loads fs_interrupted log_header N M).
  - intros g recs fl Hg E. unfold csv_files in Hg. cbn [In] in Hg.
    destruct Hg as [<-|[<-|[<-|[<-|[<-|[<-|[]]]]]]];
      vm_compute in E; try discriminate E; injection E as <- <-; right.
    + exists [row_phone]. split; [reflexivity|].
      repeat constructor; right; reflexivity.
    + exists [row_tel]. split; [reflexivity|].
      repeat constructor; right; reflexivity.
  - exists "execute_query_05.csv". split; [simpl; tauto | reflexivity].
Defined.

Lemma existing_pattern_column_is_overwritten_witness :
  let r := ["1"; "old"; json_query "select phone from t"] in
  let d := output_row (reader_row header_with_pattern r, "phone") in
  NoDup header_with_pattern
  /\ List.length r = List.length header_with_pattern
  /\ In MPP header_with_pattern
  /\ row_cells (dict_keys (reader_row header_with_pattern r) ++ [Some MPP]) d
     = [CStr "1"; CStr "phone"; CStr (json_query "select phone from t"); CStr "phone"]
  /\ dict_keys d = map Some header_with_pattern
  /\ dict_get d (Some MPP) = Some (CStr "phone")
  /\ fits (dict_keys (reader_row header_with_pattern r) ++ [Some MPP]) d
  /\ row_cells (dict_keys (reader_row header_with_pattern r) ++ [Some MPP]) d
     = map (fun kv => if String.eqb MPP (fst kv) then CStr "phone" else CStr (snd kv))
         (combine header_with_pattern r) ++ [CStr "phone"].
Proof.
  intros r d.
  assert (N : NoDup header_with_pattern).
  { repeat constructor; simpl; intuition discriminate. }
  assert (L : List.length r = List.length header_with_pattern) by reflexivity.
  assert (M : In MPP header_with_pattern) by (simpl; tauto).
  split; [exact N|]. split; [exact L|]. split; [exact M|].
  split; [vm_compute; reflexivity|].
  exact (existing_pattern_column_is_overwritten header_with_pattern r "phone" N L M).
Defined.
